(** * EcoSnap: the waste classifier service and the live camera view

    A shallow embedding of [src/services/wasteClassifier.ts], of the
    [CameraView] component of [src/components/Dropzone.tsx] and of
    [App.handleLiveResult] in [src/App.tsx].

    - JavaScript strings are modelled by [string], a character beyond ASCII
      by the bytes of its UTF-8 form; [includes] and [split(',')] on the
      bytes agree with those on the characters. What
      [String.prototype.toLowerCase] does to a string is the runtime's
      business: it is a parameter, of which it is only known that it folds
      the letters A-Z of a string of ASCII characters.
    - JavaScript numbers are IEEE doubles: [float], compared with [ltb].
    - [WASTE_MAPPINGS], [UNKNOWN_INSTRUCTIONS] (module [constants]) and the
      string values of the enum [WasteCategory] (module [types]) are not part
      of the sources at hand: they are fields of the class [Constants], and
      so is [toLowerCase]. *)

From Stdlib Require Import Floats NArith Ascii.
Set Warnings "-inexact-float".
From stdpp Require Import base option list strings gmap.

Local Open Scope string_scope.

(** ** JavaScript strings *)

Definition lower_char (c : ascii) : ascii :=
  let n := N_of_ascii c in
  if ((65 <=? n) && (n <=? 90))%N then ascii_of_N (n + 32) else c.

(** Lower case for a string of ASCII characters: A-Z become a-z. *)
Fixpoint ascii_toLowerCase (s : string) : string :=
  match s with
  | EmptyString => EmptyString
  | String c r => String (lower_char c) (ascii_toLowerCase r)
  end.

(** All the characters of [s] are ASCII characters. *)
Fixpoint ascii_only (s : string) : bool :=
  match s with
  | EmptyString => true
  | String c r => (N_of_ascii c <? 128)%N && ascii_only r
  end.

(** [String.prototype.startsWith] *)
Fixpoint startsWith (s k : string) {struct k} : bool :=
  match k, s with
  | EmptyString, _ => true
  | String _ _, EmptyString => false
  | String a k', String b s' => if Ascii.eqb a b then startsWith s' k' else false
  end.

(** [String.prototype.includes]: [k] occurs in [s] at some position. *)
Fixpoint includes (s k : string) : bool :=
  startsWith s k ||
  match s with
  | EmptyString => false
  | String _ r => includes r k
  end.

(** [s.split(',')]: the pieces of [s] between commas; never the empty array. *)
Fixpoint split_comma (s : string) : list string :=
  match s with
  | EmptyString => [EmptyString]
  | String c r =>
      if Ascii.eqb c "," then EmptyString :: split_comma r
      else match split_comma r with
           | [] => [String c EmptyString]
           | p :: ps => String c p :: ps
           end
  end.

(** [s.split(',')[0]] *)
Definition first_alias (s : string) : string :=
  match split_comma s with
  | [] => EmptyString
  | p :: _ => p
  end.

(** A JavaScript string is falsy exactly when it is empty. *)
Definition truthy (s : string) : bool :=
  match s with EmptyString => false | String _ _ => true end.

(** ** [types.ts] and [constants.ts] *)

Inductive WasteCategory : Set :=
| ORGANIC | PLASTIC | PAPER | METAL | GLASS | E_WASTE | UNKNOWN.

Record ClassificationResult := {
  category : WasteCategory;
  confidence : float;
  label : string;
  reasoning : string;
  disposalInstructions : string
}.

Record WasteMapping := {
  keywords : list string;
  mapping_category : WasteCategory;
  instructions : string
}.

Class Constants := {
  WASTE_MAPPINGS : list WasteMapping;
  UNKNOWN_INSTRUCTIONS : string;
  (** the string value of an enum member, as a template literal prints it *)
  category_value : WasteCategory -> string;
  (** [String.prototype.toLowerCase] *)
  toLowerCase : string -> string;
  toLowerCase_ascii :
    forall s, ascii_only s = true -> toLowerCase s = ascii_toLowerCase s
}.

(** ** The rule-based mapper of [WasteClassifier] *)

Section Mapper.
Context `{Constants}.

(** [getUnknownResult(label = 'Unknown Object', confidence = 0)]; an absent
    argument is [None]. *)
Definition getUnknownResult (label : option string) (confidence : option float)
  : ClassificationResult :=
  let label := default "Unknown Object" label in
  let confidence := default 0%float confidence in
  {| category := UNKNOWN;
     confidence := confidence;
     label := first_alias label;
     reasoning := "The system detected '" ++ first_alias label ++
       "' but could not match it to a specific waste stream with high confidence.";
     disposalInstructions := UNKNOWN_INSTRUCTIONS |}.

(** [mapping.keywords.find(keyword => lowerLabel.includes(keyword.toLowerCase()))] *)
Definition find_keyword (lowerLabel : string) (mapping : WasteMapping) : option string :=
  List.find (fun keyword => includes lowerLabel (toLowerCase keyword)) (keywords mapping).

(** The [for (const mapping of ...)] loop of [mapLabelToWaste]: the result
    built at the first [return], [None] when the loop runs to its end. *)
Fixpoint mapLabelToWaste_loop (label : string) (confidence : float)
    (mappings : list WasteMapping) : option ClassificationResult :=
  match mappings with
  | [] => None
  | mapping :: rest =>
      match find_keyword (toLowerCase label) mapping with
      | Some match_ =>
          if truthy match_ then
            Some {| category := mapping_category mapping;
                    confidence := confidence;
                    label := first_alias label;
                    reasoning := "Identified as '" ++ first_alias label ++
                      "' which typically falls under " ++
                      category_value (mapping_category mapping) ++ ".";
                    disposalInstructions := instructions mapping |}
          else mapLabelToWaste_loop label confidence rest
      | None => mapLabelToWaste_loop label confidence rest
      end
  end.

Definition mapLabelToWaste (label : string) (confidence : float) : ClassificationResult :=
  match mapLabelToWaste_loop label confidence WASTE_MAPPINGS with
  | Some result => result
  | None => getUnknownResult (Some label) (Some confidence)
  end.

End Mapper.

(** ** Promises and [async] functions

    An [async] function is a tree: it runs on the shared state up to its
    next [await], where the event loop takes over, and goes on from there
    when the awaited promise settles. *)

Variant Settled (X : Type) : Type :=
| Fulfilled (x : X)
| Rejected (reason : string).
Arguments Fulfilled {X} x.
Arguments Rejected {X} reason.

(** A loaded [mobilenet.MobileNet] instance. *)
Variant MobileNet : Set := MobileNetV2 (id : nat).

(** One entry of the array [model.classify] resolves to. *)
Record Prediction := { className : string; probability : float }.

Variant File : Set := Blob (name : string).

(** [HTMLImageElement | HTMLVideoElement | HTMLCanvasElement]; an image is
    known by the object URL in its [src]. *)
Variant Element : Set :=
| HTMLImageElement (src : positive)
| HTMLVideoElement
| HTMLCanvasElement.

(** The promises the classifier awaits, indexed by what they resolve to. *)
Inductive Op : Type -> Type :=
| TfReady : Op unit
| MobilenetLoad : Op MobileNet
| ModelClassify (model : MobileNet) (element : Element) : Op (option (list Prediction))
| ImageLoad (img : Element) : Op unit
| PromiseJob : Op unit.

(** The fields of the [WasteClassifier] singleton. *)
Record WasteClassifier := {
  model : option MobileNet;
  isModelLoading : bool
}.

Record World := {
  this : WasteClassifier;
  objectURLs : gset positive;   (* URLs created and not yet revoked *)
  nextURL : positive;           (* the URL the next createObjectURL returns *)
  console : list string
}.

Inductive Async (A : Type) : Type :=
| Ret (a : A)
| Throw (e : string)
| Get (k : World -> Async A)
| Put (w : World) (k : Async A)
| Await {X : Type} (op : Op X) (k : Settled X -> Async A).
Arguments Ret {A} a.
Arguments Throw {A} e.
Arguments Get {A} k.
Arguments Put {A} w k.
Arguments Await {A X} op k.

Fixpoint Async_bind {A B : Type} (f : A -> Async B) (p : Async A) : Async B :=
  match p with
  | Ret a => f a
  | Throw e => Throw e
  | Get k => Get (fun w => Async_bind f (k w))
  | Put w k => Put w (Async_bind f k)
  | Await op k => Await op (fun r => Async_bind f (k r))
  end.

#[global] Instance Async_mret : MRet Async := @Ret.
#[global] Instance Async_mbind : MBind Async := @Async_bind.

(** [try { p } catch (err) { handler err }] *)
Fixpoint try_catch {A : Type} (p : Async A) (handler : string -> Async A) : Async A :=
  match p with
  | Ret a => Ret a
  | Throw e => handler e
  | Get k => Get (fun w => try_catch (k w) handler)
  | Put w k => Put w (try_catch k handler)
  | Await op k => Await op (fun r => try_catch (k r) handler)
  end.

(** [try { p } finally { fin }] *)
Fixpoint try_finally {A : Type} (p : Async A) (fin : Async unit) : Async A :=
  match p with
  | Ret a => fin ;; Ret a
  | Throw e => fin ;; Throw e
  | Get k => Get (fun w => try_finally (k w) fin)
  | Put w k => Put w (try_finally k fin)
  | Await op k => Await op (fun r => try_finally (k r) fin)
  end.

(** [await op] on a promise of the outside world. *)
Definition await {X : Type} (op : Op X) : Async X :=
  Await op (fun r => match r with Fulfilled x => Ret x | Rejected e => Throw e end).

(** [await p()] on the promise of an [async] function of this program: the
    caller goes on in a later job of the event loop, also when [p] ran to
    its end without awaiting anything. *)
Fixpoint await_call {A : Type} (p : Async A) : Async A :=
  match p with
  | Ret a => Await PromiseJob (fun _ => Ret a)
  | Throw e => Await PromiseJob (fun _ => Throw e)
  | Get k => Get (fun w => await_call (k w))
  | Put w k => Put w (await_call k)
  | Await op k => Await op (fun r => await_call (k r))
  end.

Definition modify (f : World -> World) : Async unit :=
  Get (fun w => Put (f w) (Ret tt)).

Definition set_model (m : option MobileNet) (w : World) : World :=
  {| this := {| model := m; isModelLoading := isModelLoading (this w) |};
     objectURLs := objectURLs w; nextURL := nextURL w; console := console w |}.

Definition set_isModelLoading (b : bool) (w : World) : World :=
  {| this := {| model := model (this w); isModelLoading := b |};
     objectURLs := objectURLs w; nextURL := nextURL w; console := console w |}.

Definition console_log (line : string) : Async unit :=
  modify (fun w =>
    {| this := this w; objectURLs := objectURLs w; nextURL := nextURL w;
       console := line :: console w |}).

(** [URL.createObjectURL(file)] *)
Definition createObjectURL (file : File) : Async positive :=
  Get (fun w =>
    Put {| this := this w; objectURLs := {[nextURL w]} ∪ objectURLs w;
           nextURL := Pos.succ (nextURL w); console := console w |}
        (Ret (nextURL w))).

(** [URL.revokeObjectURL(url)] *)
Definition revokeObjectURL (url : positive) : Async unit :=
  modify (fun w =>
    {| this := this w; objectURLs := objectURLs w ∖ {[url]};
       nextURL := nextURL w; console := console w |}).

(** Where a call stands when it hands control back. *)
Variant Step (A : Type) : Type :=
| Done (r : Settled A)
| Suspended {X : Type} (op : Op X) (k : Settled X -> Async A).
Arguments Done {A} r.
Arguments Suspended {A X} op k.

(** Run up to the next [await]. *)
Fixpoint run {A : Type} (p : Async A) (w : World) : World * Step A :=
  match p with
  | Ret a => (w, Done (Fulfilled a))
  | Throw e => (w, Done (Rejected e))
  | Get k => run (k w) w
  | Put w' k => run k w'
  | Await op k => (w, Suspended op k)
  end.

(** How each awaited promise settles. *)
Definition Answers : Type := forall X, Op X -> Settled X.

Definition answers (ready : Settled unit) (load : Settled MobileNet)
    (predictions : Settled (option (list Prediction))) (image : Settled unit) : Answers :=
  fun X op =>
    match op in Op X return Settled X with
    | TfReady => ready
    | MobilenetLoad => load
    | ModelClassify _ _ => predictions
    | ImageLoad _ => image
    | PromiseJob => Fulfilled tt
    end.

(** Go on from a suspension once its promise has settled. *)
Definition resume {A : Type} (answer : Answers) (s : Step A) (w : World) : World * Step A :=
  match s with
  | Done r => (w, Done r)
  | Suspended op k => run (k (answer _ op)) w
  end.

(** Calls made one after the other before any awaited promise settles. *)
Fixpoint call_all {A : Type} (calls : list (Async A)) (w : World) : World * list (Step A) :=
  match calls with
  | [] => (w, [])
  | p :: rest =>
      let (w1, s) := run p w in
      let (w2, ss) := call_all rest w1 in
      (w2, s :: ss)
  end.

(** Run to the end with nothing else scheduled in between. *)
Fixpoint exec {A : Type} (answer : Answers) (p : Async A) (w : World)
  : World * Settled A :=
  match p with
  | Ret a => (w, Fulfilled a)
  | Throw e => (w, Rejected e)
  | Get k => exec answer (k w) w
  | Put w' k => exec answer k w'
  | Await op k => exec answer (k (answer _ op)) w
  end.

(** [P] holds wherever [p] ends, however the awaited promises settle and
    whatever other jobs did to the state while [p] was suspended. *)
Fixpoint all_exits {A : Type} (p : Async A) (w : World)
    (P : World -> Settled A -> Prop) : Prop :=
  match p with
  | Ret a => P w (Fulfilled a)
  | Throw e => P w (Rejected e)
  | Get k => all_exits (k w) w P
  | Put w' k => all_exits k w' P
  | Await op k => forall r w', all_exits (k r) w' P
  end.

(** ** [WasteClassifier] *)

(** An object reference is truthy, [null] is falsy. *)
Definition is_Some_dec {A : Type} (o : option A) : bool :=
  match o with Some _ => true | None => false end.

Section Classifier.
Context `{Constants}.

Definition loadModel : Async unit :=
  w ← Get Ret;
  if is_Some_dec (model (this w)) then Ret tt else
  if isModelLoading (this w) then Ret tt else
  modify (set_isModelLoading true);;
  try_finally
    (try_catch
       (await TfReady;;
        m ← await MobilenetLoad;
        modify (set_model (Some m));;
        console_log "Local MobileNet model loaded successfully.")
       (fun error =>
          console_log "Error loading MobileNet model:";;
          Throw "Failed to initialize local AI engine. Check your internet for the initial download."))
    (modify (set_isModelLoading false)).

Definition classifyElement (element : Element) : Async ClassificationResult :=
  w ← Get Ret;
  (if is_Some_dec (model (this w)) then Ret tt else await_call loadModel);;
  w ← Get Ret;
  match model (this w) with
  | None => Throw "Model initialization failed"
  | Some model =>
      try_catch
        (predictions ← await (ModelClassify model element);
         match predictions with
         | None | Some [] => Ret (getUnknownResult None None)
         | Some (topResult :: _) =>
             Ret (mapLabelToWaste (className topResult) (probability topResult))
         end)
        (fun err =>
           console_log "Inference error:";;
           Throw "Neural analysis failed")
  end.

(** [classify]: the promise settles from [img.onload] ([ImageLoad] fulfilled)
    or from [img.onerror] ([ImageLoad] rejected). *)
Definition classify (file : File) : Async ClassificationResult :=
  imageUrl ← createObjectURL file;
  let img := HTMLImageElement imageUrl in
  Await (ImageLoad img) (fun loaded =>
    match loaded with
    | Fulfilled _ =>
        try_catch
          (result ← await_call (classifyElement img);
           revokeObjectURL imageUrl;;
           Ret result)
          (fun err =>
             revokeObjectURL imageUrl;;
             Throw err)
    | Rejected _ =>
        revokeObjectURL imageUrl;;
        Throw "Failed to process image file"
    end).

End Classifier.

(** ** [CameraView] and the [onResult] handler of [App]

    One [CameraView] from its mount on: its refs and state, the timers and
    the camera tracks of the browser, and the [result] state of [App]. The
    call [wasteClassifier.classifyElement(video)] that [processFrame] awaits
    is a single promise here; it settles with a result or with an error.
    [App] renders the component in live mode only, so that leaving live mode
    unmounts it; the promises and timeouts of its functions go on after
    that. *)

Record Video := {
  srcObject : option (list nat);   (* a MediaStream, as the list of its tracks *)
  readyState : Z
}.

(** What a function of the component sees of the render that created it. *)
Record Render := {
  r_isActive : bool;
  r_isStreaming : bool
}.

Record CameraView := {
  videoRef : option Video;
  error : option string;
  isStreaming : bool;
  requestRef : option Z;
  isProcessingRef : bool
}.

Record Page := {
  isActive : bool;                      (* the prop: [mode === 'live'] *)
  view : CameraView;
  acquiring : bool;                     (* getUserMedia is pending *)
  timers : gmap Z Render;               (* pending timeouts, all of them processFrame *)
  nextTimer : Z;                        (* the handle the next setTimeout returns *)
  inflight : list Render;               (* processFrame calls awaiting classifyElement *)
  live_tracks : gset nat;               (* camera tracks that are capturing *)
  result : option ClassificationResult; (* the [result] state of App *)
  sink : list ClassificationResult      (* every value given to setResult by the live handler, latest first *)
}.

Definition with_view (f : CameraView -> CameraView) (p : Page) : Page :=
  {| isActive := isActive p; view := f (view p); acquiring := acquiring p;
     timers := timers p; nextTimer := nextTimer p; inflight := inflight p;
     live_tracks := live_tracks p; result := result p; sink := sink p |}.

Definition set_isProcessingRef (b : bool) : Page -> Page :=
  with_view (fun v =>
    {| videoRef := videoRef v; error := error v; isStreaming := isStreaming v;
       requestRef := requestRef v; isProcessingRef := b |}).

Definition set_requestRef (r : option Z) : Page -> Page :=
  with_view (fun v =>
    {| videoRef := videoRef v; error := error v; isStreaming := isStreaming v;
       requestRef := r; isProcessingRef := isProcessingRef v |}).

Definition setIsStreaming (b : bool) : Page -> Page :=
  with_view (fun v =>
    {| videoRef := videoRef v; error := error v; isStreaming := b;
       requestRef := requestRef v; isProcessingRef := isProcessingRef v |}).

Definition setError (e : string) : Page -> Page :=
  with_view (fun v =>
    {| videoRef := videoRef v; error := Some e; isStreaming := isStreaming v;
       requestRef := requestRef v; isProcessingRef := isProcessingRef v |}).

Definition set_videoRef (o : option Video) : Page -> Page :=
  with_view (fun v =>
    {| videoRef := o; error := error v; isStreaming := isStreaming v;
       requestRef := requestRef v; isProcessingRef := isProcessingRef v |}).

Definition set_timers (t : gmap Z Render) (n : Z) (p : Page) : Page :=
  {| isActive := isActive p; view := view p; acquiring := acquiring p;
     timers := t; nextTimer := n; inflight := inflight p;
     live_tracks := live_tracks p; result := result p; sink := sink p |}.

Definition set_inflight (l : list Render) (p : Page) : Page :=
  {| isActive := isActive p; view := view p; acquiring := acquiring p;
     timers := timers p; nextTimer := nextTimer p; inflight := l;
     live_tracks := live_tracks p; result := result p; sink := sink p |}.

Definition set_live_tracks (t : gset nat) (p : Page) : Page :=
  {| isActive := isActive p; view := view p; acquiring := acquiring p;
     timers := timers p; nextTimer := nextTimer p; inflight := inflight p;
     live_tracks := t; result := result p; sink := sink p |}.

Definition set_isActive (b : bool) (p : Page) : Page :=
  {| isActive := b; view := view p; acquiring := acquiring p;
     timers := timers p; nextTimer := nextTimer p; inflight := inflight p;
     live_tracks := live_tracks p; result := result p; sink := sink p |}.

Definition set_acquiring (b : bool) (p : Page) : Page :=
  {| isActive := isActive p; view := view p; acquiring := b;
     timers := timers p; nextTimer := nextTimer p; inflight := inflight p;
     live_tracks := live_tracks p; result := result p; sink := sink p |}.

(** [setResult(newResult)] of App, called from the live handler. *)
Definition setResult (r : ClassificationResult) (p : Page) : Page :=
  {| isActive := isActive p; view := view p; acquiring := acquiring p;
     timers := timers p; nextTimer := nextTimer p; inflight := inflight p;
     live_tracks := live_tracks p; result := Some r; sink := r :: sink p |}.

(** [App.handleLiveResult], the [onResult] prop of [CameraView]. *)
Definition handleLiveResult (newResult : ClassificationResult) (p : Page) : Page :=
  if (0.2 <? confidence newResult)%float then setResult newResult p else p.

(** [window.setTimeout(() => processFrame(), 800)] from the render [r]. *)
Definition setTimeout (r : Render) (p : Page) : Z * Page :=
  (nextTimer p, set_timers (<[nextTimer p := r]> (timers p)) (nextTimer p + 1) p).

Definition clearTimeout (id : Z) (p : Page) : Page :=
  set_timers (delete id (timers p)) (nextTimer p) p.

Definition scheduleNext (r : Render) (p : Page) : Page :=
  if r_isActive r && r_isStreaming r then
    let (id, p) := setTimeout r p in
    set_requestRef (Some id) p
  else p.

(** [processFrame] up to its [await], or to its end when it awaits nothing. *)
Definition processFrame (r : Render) (p : Page) : Page :=
  if negb (r_isActive r) || negb (r_isStreaming r) || isProcessingRef (view p) then
    scheduleNext r p
  else
    match videoRef (view p) with
    | Some video =>
        if (3 <=? readyState video)%Z then
          set_inflight (r :: inflight p) (set_isProcessingRef true p)
        else scheduleNext r p
    | None => scheduleNext r p
    end.

(** [processFrame] from the moment the awaited [classifyElement] settles:
    the rest of [try], [catch], [finally], and [scheduleNext]. *)
Definition processFrame_settled (r : Render) (outcome : Settled ClassificationResult)
    (p : Page) : Page :=
  let p := match outcome with
           | Fulfilled result => handleLiveResult result p
           | Rejected _ => p
           end in
  let p := set_isProcessingRef false p in
  scheduleNext r p.

Definition stopCamera (p : Page) : Page :=
  let p := match videoRef (view p) with
           | Some video =>
               match srcObject video with
               | Some tracks =>
                   set_videoRef
                     (Some {| srcObject := None; readyState := readyState video |})
                     (set_live_tracks (live_tracks p ∖ list_to_set tracks) p)
               | None => p
               end
           | None => p
           end in
  let p := setIsStreaming false p in
  let p := match requestRef (view p) with
           | Some id =>
               if (id =? 0)%Z then p
               else set_requestRef None (clearTimeout id p)
           | None => p
           end in
  set_isProcessingRef false p.

(** [startCamera] from the moment [getUserMedia] settles. *)
Definition startCamera_settled (outcome : Settled (list nat)) (p : Page) : Page :=
  match outcome with
  | Fulfilled stream =>
      match videoRef (view p) with
      | Some video =>
          setIsStreaming true
            (set_videoRef (Some {| srcObject := Some stream; readyState := readyState video |}) p)
      | None => p
      end
  | Rejected _ =>
      setError "Camera access blocked. Please enable permissions and refresh." p
  end.

(** The effect on [[isStreaming, isActive]], run with the values of the
    render that follows a change of either. *)
Definition scan_effect (p : Page) : Page :=
  let r := {| r_isActive := isActive p; r_isStreaming := isStreaming (view p) |} in
  if r_isStreaming r && r_isActive r then processFrame r p else p.

(** The component as [App] mounts it in live mode: the first effect has
    called [startCamera], nothing else has happened yet. *)
Definition mount : Page :=
  {| isActive := true;
     view := {| videoRef := Some {| srcObject := None; readyState := 0 |};
                error := None; isStreaming := false;
                requestRef := None; isProcessingRef := false |};
     acquiring := true;
     timers := ∅; nextTimer := 1;
     inflight := []; live_tracks := ∅;
     result := None; sink := [] |}.

Definition set_readyState (n : Z) (p : Page) : Page :=
  match videoRef (view p) with
  | Some video => set_videoRef (Some {| srcObject := srcObject video; readyState := n |}) p
  | None => p
  end.

(** [App] leaves live mode: it stops rendering [CameraView], so the
    component is unmounted. The video element goes, [videoRef.current]
    being reset to [null] with it, and then the cleanup of the first effect
    runs [stopCamera]. *)
Definition unmount (p : Page) : Page :=
  stopCamera (set_videoRef None (set_isActive false p)).

(** What the event loop can do next with the page: [getUserMedia] settles
    (and, [isStreaming] having changed, the second effect runs), the video
    element changes its [readyState], a pending timeout fires, an awaited
    [classifyElement] settles, or [App] leaves live mode. *)
Inductive step : Page -> Page -> Prop :=
| step_granted p stream :
    acquiring p = true ->
    step p (let p0 := set_acquiring false (set_live_tracks (live_tracks p ∪ list_to_set stream) p) in
            let p1 := startCamera_settled (Fulfilled stream) p0 in
            if isStreaming (view p0) then p1 else scan_effect p1)
| step_denied p reason :
    acquiring p = true ->
    step p (startCamera_settled (Rejected reason) (set_acquiring false p))
| step_video p n :
    step p (set_readyState n p)
| step_timer p id r :
    timers p !! id = Some r ->
    step p (processFrame r (set_timers (delete id (timers p)) (nextTimer p) p))
| step_settled p before r after outcome :
    inflight p = (before ++ r :: after)%list ->
    step p (processFrame_settled r outcome (set_inflight (before ++ after)%list p))
| step_deactivate p :
    isActive p = true ->
    step p (unmount p).

Inductive reachable : Page -> Prop :=
| reachable_mount : reachable mount
| reachable_step p p' : reachable p -> step p p' -> reachable p'.

(** ** The vocabulary of the statements *)

(** [k] occurs in [s]. *)
Definition substring (k s : string) : Prop :=
  exists pre post, s = pre ++ k ++ post.

(** [k] is a case-insensitive substring of the label [L]: the lower-case
    form of [k] occurs in the lower-case form of [L]. *)
Definition keyword_hits `{Constants} (L k : string) : Prop :=
  substring (toLowerCase k) (toLowerCase L).

(** [k] occurs in [L] up to the case of the letters A-Z: a piece of [L]
    itself and [k] differ in the case of such letters only. *)
Definition occurs_ignoring_case (k L : string) : Prop :=
  exists pre mid post,
    L = pre ++ mid ++ post /\ ascii_toLowerCase mid = ascii_toLowerCase k.

(** The keyword set of the rule [m] contains a case-insensitive substring of [L]. *)
Definition rule_matches `{Constants} (L : string) (m : WasteMapping) : Prop :=
  exists k, k ∈ keywords m /\ keyword_hits L k.

(** [k] is the first keyword of the rule [m], in the order of its keyword
    list, that is a case-insensitive substring of [L]. *)
Definition first_hit `{Constants} (L : string) (m : WasteMapping) (k : string) : Prop :=
  exists before after,
    keywords m = (before ++ k :: after)%list /\
    keyword_hits L k /\
    forall k', k' ∈ before -> ~ keyword_hits L k'.

(** The rule [m] fires on [L]: its first keyword that is a case-insensitive
    substring of [L] is not the empty string. *)
Definition rule_fires `{Constants} (L : string) (m : WasteMapping) : Prop :=
  exists k, first_hit L m k /\ k <> "".

(** [p] is the part of [L] before its first comma (all of [L] when it has none). *)
Definition before_first_comma (L p : string) : Prop :=
  ~ substring "," p /\ (L = p \/ exists rest, L = p ++ "," ++ rest).

(** The classifier holds no model and no load is under way. *)
Definition unloaded (w : World) : Prop :=
  model (this w) = None /\ isModelLoading (this w) = false.

(** No model yet, and a load is under way. *)
Definition loading (w : World) : Prop :=
  model (this w) = None /\ isModelLoading (this w) = true.

Definition is_suspended {A : Type} (s : Step A) : bool :=
  match s with Suspended _ _ => true | Done _ => false end.

(** The call is suspended on [tf.ready()], the first promise of a load. *)
Definition started_load {A : Type} (s : Step A) : Prop :=
  match s with
  | Suspended TfReady _ => True
  | _ => False
  end.

Definition load_error : string :=
  "Failed to initialize local AI engine. Check your internet for the initial download.".

(** A two-rule table and a fresh world to run the definitions on. The
    strings of the examples are ASCII strings, on which [toLowerCase] is
    [ascii_toLowerCase]. *)
Definition example_constants : Constants :=
  {| WASTE_MAPPINGS :=
       [ {| keywords := ["banana"; "fruit"]; mapping_category := ORGANIC;
            instructions := "Compost it." |};
         {| keywords := ["bottle"; "Plastic"]; mapping_category := PLASTIC;
            instructions := "Rinse and recycle." |} ];
     UNKNOWN_INSTRUCTIONS := "Check local guidelines.";
     category_value := fun c =>
       match c with
       | ORGANIC => "Organic" | PLASTIC => "Plastic" | PAPER => "Paper"
       | METAL => "Metal" | GLASS => "Glass" | E_WASTE => "E-Waste"
       | UNKNOWN => "Unknown"
       end;
     toLowerCase := ascii_toLowerCase;
     toLowerCase_ascii := fun _ _ => eq_refl |}.

(** A table whose only rule lists the empty string before its keyword. *)
Definition empty_keyword_constants : Constants :=
  {| WASTE_MAPPINGS :=
       [ {| keywords := [""; "banana"]; mapping_category := ORGANIC;
            instructions := "Compost it." |} ];
     UNKNOWN_INSTRUCTIONS := "Check local guidelines.";
     category_value := @category_value example_constants;
     toLowerCase := ascii_toLowerCase;
     toLowerCase_ascii := fun _ _ => eq_refl |}.

Definition banana : Prediction :=
  {| className := "banana, plantain"; probability := 0.91%float |}.

Definition fresh_world : World :=
  {| this := {| model := None; isModelLoading := false |};
     objectURLs := ∅; nextURL := 1%positive; console := [] |}.

(** Callers of [loadModel] and the event loop: calls are made at any time,
    and the promises the calls await settle in any order, each in any way. *)
Record Callers := {
  c_world : World;
  c_calls : list (Step unit)   (* where each call made so far stands *)
}.

Inductive callers_step : Callers -> Callers -> Prop :=
| callers_call s :
    callers_step s
      (let (w', st) := run loadModel (c_world s) in
       {| c_world := w'; c_calls := (c_calls s ++ [st])%list |})
| callers_settle s before X (op : Op X) k after (r : Settled X) :
    c_calls s = (before ++ Suspended op k :: after)%list ->
    callers_step s
      (let (w', st) := run (k r) (c_world s) in
       {| c_world := w'; c_calls := (before ++ st :: after)%list |}).

Inductive callers_reachable (w0 : World) : Callers -> Prop :=
| callers_init : callers_reachable w0 {| c_world := w0; c_calls := [] |}
| callers_next s s' :
    callers_reachable w0 s -> callers_step s s' -> callers_reachable w0 s'.

(** The calls that are suspended, that is, inside a load attempt. *)
Definition loads_in_flight (s : Callers) : nat :=
  length (List.filter is_suspended (c_calls s)).

(** A suspended call that holds the load: however its promise settles, it
    either awaits the next promise of the load with the flag still up, or
    ends with the flag down. *)
Inductive load_cont : Step unit -> Prop :=
| load_cont_intro X (op : Op X) k :
    (forall r w w' st,
       isModelLoading (this w) = true -> run (k r) w = (w', st) ->
       isModelLoading (this w') = is_suspended st) ->
    (forall r w w' st,
       isModelLoading (this w) = true -> run (k r) w = (w', st) ->
       is_suspended st = true -> load_cont st) ->
    load_cont (Suspended op k).

(** The flag [isModelLoading] tells whether a load is in flight, and the
    call in flight is the one that holds the load. *)
Definition callers_inv (s : Callers) : Prop :=
  Forall (fun st => is_suspended st = true -> load_cont st) (c_calls s) /\
  loads_in_flight s = (if isModelLoading (this (c_world s)) then 1 else 0).

(** The sampling loop of the component is in one of three states: it is
    not running, it waits for its one pending timeout (the one
    [requestRef] holds), or it awaits its one inference. *)
Definition chain_ok (p : Page) : Prop :=
  (timers p = ∅ /\ length (inflight p) <= 1) \/
  (inflight p = [] /\
   exists id r, timers p = {[id := r]} /\ requestRef (view p) = Some id /\ id <> 0%Z).

(** Every capturing track belongs to the stream the video element shows. *)
Definition tracks_ok (p : Page) : Prop :=
  forall t, t ∈ live_tracks p ->
    exists video stream,
      videoRef (view p) = Some video /\ srcObject video = Some stream /\ t ∈ stream.

Record page_inv (p : Page) : Prop := {
  inv_chain : chain_ok p;
  inv_idle : acquiring p = true ->
             timers p = ∅ /\ inflight p = [] /\ live_tracks p = ∅;
  inv_busy : isActive p = true -> inflight p <> [] -> isProcessingRef (view p) = true;
  inv_tracks : isActive p = true -> tracks_ok p;
  inv_video : isActive p = true -> is_Some (videoRef (view p));
  inv_next : (0 < nextTimer p)%Z
}.

(** A run of the component: the camera is granted, the video gets ready,
    the first timeout fires and starts an inference, the user leaves live
    mode, and only then the inference delivers its result. *)
Definition live_render : Render := {| r_isActive := true; r_isStreaming := true |}.

Definition page_granted : Page :=
  scan_effect
    (startCamera_settled (Fulfilled [7])
       (set_acquiring false (set_live_tracks (live_tracks mount ∪ list_to_set [7]) mount))).

Definition page_ready : Page := set_readyState 4 page_granted.

Definition page_inferring : Page :=
  processFrame live_render
    (set_timers (delete 1%Z (timers page_ready)) (nextTimer page_ready) page_ready).

Definition page_deactivated : Page := unmount page_inferring.

Definition late_result : ClassificationResult :=
  {| category := PLASTIC; confidence := 0.9%float; label := "water bottle";
     reasoning := "Identified as 'water bottle' which typically falls under Plastic.";
     disposalInstructions := "Rinse and recycle." |}.

Definition page_late : Page :=
  processFrame_settled live_render (Fulfilled late_result)
    (set_inflight [] page_deactivated).

(** ** The earlier variant of the service (second part of [src/App.tsx])

    It compares the lowercased label with the keywords as they are written,
    keeps the whole label, and decodes the image with [img.decode()]
    (awaited as [ImageLoad]) after making sure the model is there. *)

Section ClassifierV1.
Context `{Constants}.

Definition getUnknownResult_v1 (label : option string) (confidence : option float)
  : ClassificationResult :=
  let label := default "Unknown Item" label in
  let confidence := default 0%float confidence in
  {| category := UNKNOWN;
     confidence := confidence;
     label := label;
     reasoning := "The detected object '" ++ label ++
       "' doesn't match common waste categories in our database.";
     disposalInstructions := UNKNOWN_INSTRUCTIONS |}.

Fixpoint mapLabelToWaste_v1_loop (label : string) (confidence : float)
    (mappings : list WasteMapping) : option ClassificationResult :=
  match mappings with
  | [] => None
  | mapping :: rest =>
      match List.find (fun keyword => includes (toLowerCase label) keyword)
                      (keywords mapping) with
      | Some match_ =>
          if truthy match_ then
            Some {| category := mapping_category mapping;
                    confidence := confidence;
                    label := label;
                    reasoning := "Matched object detected as '" ++ label ++
                      "' which is categorized as " ++
                      category_value (mapping_category mapping) ++ ".";
                    disposalInstructions := instructions mapping |}
          else mapLabelToWaste_v1_loop label confidence rest
      | None => mapLabelToWaste_v1_loop label confidence rest
      end
  end.

Definition mapLabelToWaste_v1 (label : string) (confidence : float) : ClassificationResult :=
  match mapLabelToWaste_v1_loop label confidence WASTE_MAPPINGS with
  | Some result => result
  | None => getUnknownResult_v1 (Some label) (Some confidence)
  end.

Definition loadModel_v1 : Async unit :=
  w ← Get Ret;
  if is_Some_dec (model (this w)) then Ret tt else
  if isModelLoading (this w) then Ret tt else
  modify (set_isModelLoading true);;
  try_finally
    (try_catch
       (await TfReady;;
        m ← await MobilenetLoad;
        modify (set_model (Some m));;
        console_log "MobileNet model loaded successfully using ESM.")
       (fun error =>
          console_log "Error loading MobileNet model:";;
          Throw "Failed to initialize AI model. Please check your internet connection."))
    (modify (set_isModelLoading false)).

(** [this.model.classify(img)] is evaluated after [img.decode()] has been
    awaited; on [null] it is a TypeError, caught like any other error. *)
Definition classify_v1 (file : File) : Async ClassificationResult :=
  await_call loadModel_v1;;
  w ← Get Ret;
  if negb (is_Some_dec (model (this w))) then Throw "Model not initialized properly."
  else
    imageUrl ← createObjectURL file;
    let img := HTMLImageElement imageUrl in
    try_catch
      (await (ImageLoad img);;
       w ← Get Ret;
       predictions ← match model (this w) with
                     | Some model => await (ModelClassify model img)
                     | None => Throw "TypeError: Cannot read properties of null"
                     end;
       revokeObjectURL imageUrl;;
       match predictions with
       | None | Some [] => Ret (getUnknownResult_v1 None None)
       | Some (topResult :: _) =>
           Ret (mapLabelToWaste_v1 (className topResult) (probability topResult))
       end)
      (fun err =>
         revokeObjectURL imageUrl;;
         console_log "Classification error:";;
         Throw "Could not process this image. Try a different file format.").

End ClassifierV1.

(** ** [App]: the state of the component and its handlers

    An [async] handler is given by its part before the [await] and its part
    after it, as for [processFrame], and by its run with nothing else
    scheduled in between. *)

Module App.

Variant Mode : Set := upload | live.

Record State := {
  modelReady : bool;
  loadingError : option string;
  isProcessing : bool;
  result : option ClassificationResult;
  previewUrl : option positive;
  mode : Mode
}.

Definition setModelReady (b : bool) (s : State) : State :=
  {| modelReady := b; loadingError := loadingError s; isProcessing := isProcessing s;
     result := result s; previewUrl := previewUrl s; mode := mode s |}.

Definition setLoadingError (e : option string) (s : State) : State :=
  {| modelReady := modelReady s; loadingError := e; isProcessing := isProcessing s;
     result := result s; previewUrl := previewUrl s; mode := mode s |}.

Definition setIsProcessing (b : bool) (s : State) : State :=
  {| modelReady := modelReady s; loadingError := loadingError s; isProcessing := b;
     result := result s; previewUrl := previewUrl s; mode := mode s |}.

Definition setResult (r : option ClassificationResult) (s : State) : State :=
  {| modelReady := modelReady s; loadingError := loadingError s;
     isProcessing := isProcessing s;
     result := r; previewUrl := previewUrl s; mode := mode s |}.

Definition setPreviewUrl (u : option positive) (s : State) : State :=
  {| modelReady := modelReady s; loadingError := loadingError s;
     isProcessing := isProcessing s;
     result := result s; previewUrl := u; mode := mode s |}.

(** The first render of the component. *)
Definition initial : State :=
  {| modelReady := false; loadingError := None; isProcessing := false;
     result := None; previewUrl := None; mode := upload |}.

(** [err.message || fallback] *)
Definition message_or (message fallback : string) : string :=
  if truthy message then message else fallback.

(** [URL.createObjectURL(file)] as the handler calls it. *)
Definition createObjectURL_now (w : World) : positive * World :=
  (nextURL w,
   {| this := this w; objectURLs := {[nextURL w]} ∪ objectURLs w;
      nextURL := Pos.succ (nextURL w); console := console w |}).

(** [initModel] from the moment [wasteClassifier.loadModel()] settles. *)
Definition initModel_settled (outcome : Settled unit) (s : State) : State :=
  match outcome with
  | Fulfilled _ => setLoadingError None (setModelReady true s)
  | Rejected message =>
      setLoadingError (Some (message_or message "Neural System Initialization Failed.")) s
  end.

(** [initModel], run with nothing else scheduled in between. *)
Definition initModel (answer : Answers) (s : State) (w : World) : State * World :=
  let (w', outcome) := exec answer (await_call loadModel) w in
  (initModel_settled outcome s, w').

(** [handleFileSelect] up to its [await]. The handler was created by a
    render that saw [modelReady = ready]; [None] is its early [return]. *)
Definition handleFileSelect_start (ready : bool) (file : File) (s : State) (w : World)
  : option (State * World) :=
  if negb ready then None
  else
    let s := setIsProcessing true
               (setLoadingError None (setPreviewUrl None (setResult None s))) in
    let (url, w) := createObjectURL_now w in
    Some (setPreviewUrl (Some url) s, w).

(** [handleFileSelect] from the moment [wasteClassifier.classify(file)]
    settles: the rest of [try], [catch], [finally]. *)
Definition handleFileSelect_settled (outcome : Settled ClassificationResult) (s : State)
  : State :=
  let s := match outcome with
           | Fulfilled classification => setResult (Some classification) s
           | Rejected message =>
               setLoadingError (Some (message_or message "Analysis failed.")) s
           end in
  setIsProcessing false s.

Section Handlers.
Context `{Constants}.

(** [handleFileSelect], run with nothing else scheduled in between. *)
Definition handleFileSelect (answer : Answers) (ready : bool) (file : File)
    (s : State) (w : World) : State * World :=
  match handleFileSelect_start ready file s w with
  | None => (s, w)
  | Some (s1, w1) =>
      let (w2, outcome) := exec answer (await_call (classify file)) w1 in
      (handleFileSelect_settled outcome s1, w2)
  end.

End Handlers.

Record Styles := { bg : string; text : string; light : string; border : string }.

Definition getCategoryStyles (category : WasteCategory) : Styles :=
  match category with
  | ORGANIC => {| bg := "bg-green-500"; text := "text-green-600";
                  light := "bg-green-50"; border := "border-green-200" |}
  | PLASTIC => {| bg := "bg-amber-500"; text := "text-amber-600";
                  light := "bg-amber-50"; border := "border-amber-200" |}
  | PAPER => {| bg := "bg-sky-500"; text := "text-sky-600";
                light := "bg-sky-50"; border := "border-sky-200" |}
  | METAL => {| bg := "bg-zinc-500"; text := "text-zinc-600";
                light := "bg-zinc-50"; border := "border-zinc-200" |}
  | GLASS => {| bg := "bg-emerald-500"; text := "text-emerald-600";
                light := "bg-emerald-50"; border := "border-emerald-200" |}
  | E_WASTE => {| bg := "bg-indigo-500"; text := "text-indigo-600";
                  light := "bg-indigo-50"; border := "border-indigo-200" |}
  | UNKNOWN => {| bg := "bg-rose-500"; text := "text-rose-600";
                  light := "bg-rose-50"; border := "border-rose-200" |}
  end.

End App.

(** ** More vocabulary *)

(** A table like [example_constants] with its keywords in lower case. *)
Definition lowercase_constants : Constants :=
  {| WASTE_MAPPINGS :=
       [ {| keywords := ["banana"; "fruit"]; mapping_category := ORGANIC;
            instructions := "Compost it." |};
         {| keywords := ["bottle"; "plastic"]; mapping_category := PLASTIC;
            instructions := "Rinse and recycle." |} ];
     UNKNOWN_INSTRUCTIONS := "Check local guidelines.";
     category_value := @category_value example_constants;
     toLowerCase := ascii_toLowerCase;
     toLowerCase_ascii := fun _ _ => eq_refl |}.

(** The world after the first successful load from [w]. *)
Definition loaded_from (m : MobileNet) (w : World) : World :=
  {| this := {| model := Some m; isModelLoading := false |};
     objectURLs := objectURLs w; nextURL := nextURL w;
     console := "Local MobileNet model loaded successfully." :: console w |}.

(** The world once [url] has been revoked. *)
Definition revoked (url : positive) (w : World) : World :=
  {| this := this w; objectURLs := objectURLs w ∖ {[url]};
     nextURL := nextURL w; console := console w |}.

(** The messages of the earlier variant. *)
Definition load_error_v1 : string :=
  "Failed to initialize AI model. Please check your internet connection.".
Definition not_initialized_v1 : string := "Model not initialized properly.".
Definition process_error_v1 : string :=
  "Could not process this image. Try a different file format.".

(** One more call of [loadModel]. *)
Definition callers_call_now (s : Callers) : Callers :=
  let (w', st) := run loadModel (c_world s) in
  {| c_world := w'; c_calls := (c_calls s ++ [st])%list |}.

(** The promise the oldest call awaits settles as [answer] says. *)
Definition callers_settle_first (answer : Answers) (s : Callers) : Callers :=
  match c_calls s with
  | Suspended op k :: after =>
      let (w', st) := run (k (answer _ op)) (c_world s) in
      {| c_world := w'; c_calls := st :: after |}
  | _ => s
  end.

Definition all_fulfilled : Answers :=
  answers (Fulfilled tt) (Fulfilled (MobileNetV2 0)) (Fulfilled (Some [banana]))
    (Fulfilled tt).

(** One call of [loadModel] on a fresh world, and its load gone through. *)
Definition callers_loaded : Callers :=
  callers_settle_first all_fulfilled
    (callers_settle_first all_fulfilled
       (callers_call_now {| c_world := fresh_world; c_calls := [] |})).

(** What [classifyElement] can be fulfilled with. *)
Definition mapped_result `{Constants} (c : ClassificationResult) : Prop :=
  c = getUnknownResult None None \/
  exists top : Prediction, c = mapLabelToWaste (className top) (probability top).

(** The messages the service throws. *)
Definition initialization_error : string := "Model initialization failed".
Definition inference_error : string := "Neural analysis failed".
Definition decode_error : string := "Failed to process image file".

(** Object URLs are handed out in increasing order: the next one is not
    registered yet. *)
Definition urls_fresh (w : World) : Prop :=
  forall url, url ∈ objectURLs w -> (url < nextURL w)%positive.

(** Every keyword of the table is written in lower case. *)
Definition lowercase_table `{Constants} (table : list WasteMapping) : Prop :=
  forall m k, m ∈ table -> k ∈ keywords m -> toLowerCase k = k.

(** A suspended call that holds the load, seen from the model: while the
    load goes on the classifier stays as it is, and the load ends with the
    flag down. *)
Inductive load_holds : Step unit -> Prop :=
| load_holds_intro X (op : Op X) k :
    (forall r w w' st,
       loading w -> run (k r) w = (w', st) ->
       is_suspended st = true -> loading w') ->
    (forall r w w' st,
       loading w -> run (k r) w = (w', st) ->
       is_suspended st = true -> load_holds st) ->
    (forall r w w' st,
       loading w -> run (k r) w = (w', st) ->
       is_suspended st = false -> isModelLoading (this w') = false) ->
    load_holds (Suspended op k).

Definition callers_model_inv (s : Callers) : Prop :=
  Forall (fun st => is_suspended st = true -> load_holds st) (c_calls s) /\
  loads_in_flight s = (if isModelLoading (this (c_world s)) then 1 else 0) /\
  (isModelLoading (this (c_world s)) = true -> model (this (c_world s)) = None).

(** All the functions the loop has scheduled or suspended were created by a
    render that saw the session active and streaming. *)
Definition live (r : Render) : Prop := r_isActive r = true /\ r_isStreaming r = true.

Definition camera_error : string :=
  "Camera access blocked. Please enable permissions and refresh.".

(** What holds of the component beyond [page_inv]: before the camera
    answers nothing has started; after a refusal nothing ever starts; every
    function of the loop is [live]; and an active, streaming session has
    its loop running. *)
Record scan_inv (p : Page) : Prop := {
  scan_error : error (view p) = None \/ error (view p) = Some camera_error;
  scan_waiting : acquiring p = true ->
                 isStreaming (view p) = false /\ error (view p) = None /\
                 sink p = [] /\ result p = None;
  scan_denied : error (view p) <> None ->
                acquiring p = false /\ isStreaming (view p) = false /\
                timers p = ∅ /\ inflight p = [] /\ live_tracks p = ∅ /\
                sink p = [] /\ result p = None;
  scan_timers : forall id r, timers p !! id = Some r -> live r;
  scan_inflight : forall r, r ∈ inflight p -> live r;
  scan_alive : isActive p = true -> isStreaming (view p) = true ->
               timers p <> ∅ \/ inflight p <> []
}.

(** The session is left while the camera has not answered yet, and the
    camera is granted afterwards. *)
Definition page_left_early : Page := unmount mount.

Definition page_granted_late : Page :=
  startCamera_settled (Fulfilled [7])
    (set_acquiring false
       (set_live_tracks (live_tracks page_left_early ∪ list_to_set [7]) page_left_early)).

(** The camera is refused. *)
Definition page_denied : Page :=
  startCamera_settled (Rejected "NotAllowedError") (set_acquiring false mount).

Definition sample_state : App.State :=
  {| App.modelReady := true; App.loadingError := None; App.isProcessing := false;
     App.result := None; App.previewUrl := None; App.mode := App.upload |}.

(** * Properties *)

(** ** Strings *)

Lemma append_nil_l (s : string) : "" ++ s = s.
Proof. reflexivity. Qed.

Lemma append_cons (a : ascii) (s t : string) : String a s ++ t = String a (s ++ t).
Proof. reflexivity. Qed.

Ltac str := rewrite ?append_cons, ?append_nil_l in *.

Lemma startsWith_spec (s k : string) :
  startsWith s k = true <-> exists post, s = k ++ post.
Proof.
  revert s. induction k as [|a k IH]; intros s; simpl.
  - split; [intros _; by exists s | done].
  - destruct s as [|b s].
    + split; [done | intros [post Hp]; discriminate].
    + destruct (Ascii.eqb_spec a b) as [->|Hne].
      * rewrite IH. split; intros [post Hp]; exists post; str; congruence.
      * split; [done | intros [post Hp]; str; congruence].
Qed.

Lemma includes_spec (s k : string) :
  includes s k = true <-> substring k s.
Proof.
  unfold substring. induction s as [|b s IH].
  - cbn [includes]. rewrite orb_false_r, startsWith_spec. split.
    + intros [post Hp]. by exists "", post.
    + intros [pre [post Hp]]. destruct pre; [by exists post | discriminate].
  - cbn [includes]. rewrite orb_true_iff, IH, startsWith_spec. split.
    + intros [[post Hp] | [pre [post Hp]]].
      * by exists "", post.
      * exists (String b pre), post. str. by rewrite Hp.
    + intros [[|c pre] [post Hp]].
      * left. by exists post.
      * right. exists pre, post. str. congruence.
Qed.

Lemma includes_false (s k : string) :
  includes s k = false <-> ~ substring k s.
Proof.
  rewrite <- includes_spec. by destruct (includes s k).
Qed.

Lemma split_comma_nonempty (s : string) : split_comma s <> [].
Proof.
  induction s as [|c s IH]; simpl; [done|].
  destruct (Ascii.eqb c ","); [done|]. by destruct (split_comma s).
Qed.

Lemma first_alias_cons (c : ascii) (s : string) :
  first_alias (String c s) =
  if Ascii.eqb c "," then "" else String c (first_alias s).
Proof.
  unfold first_alias. simpl. destruct (Ascii.eqb c ","); [done|].
  pose proof (split_comma_nonempty s). by destruct (split_comma s).
Qed.

Lemma substring_cons (k : string) (a : ascii) (s : string) :
  substring k s -> substring k (String a s).
Proof. intros [pre [post ->]]. by exists (String a pre), post. Qed.

Lemma first_alias_spec (L : string) : before_first_comma L (first_alias L).
Proof.
  unfold before_first_comma. induction L as [|c L [IHn IHp]].
  - split; [|by left]. apply includes_false. reflexivity.
  - rewrite first_alias_cons. destruct (Ascii.eqb_spec c ",") as [->|Hne].
    + split; [apply includes_false; reflexivity|]. right. by exists L.
    + split.
      * intros [[|a pre] [post Hp]]; str.
        -- by injection Hp.
        -- apply IHn. exists pre, post. str. congruence.
      * destruct IHp as [HL | [rest HL]].
        -- left. congruence.
        -- right. exists rest. str. congruence.
Qed.

Lemma before_first_comma_tail (a : ascii) (L p : string) :
  before_first_comma (String a L) (String a p) -> before_first_comma L p.
Proof.
  intros [Hn Hs]. split.
  - intros Hsub. by apply Hn, substring_cons.
  - destruct Hs as [Hs | [rest Hs]]; str; [left | right; exists rest]; str; congruence.
Qed.

Lemma before_first_comma_nil (L q : string) :
  before_first_comma L "" -> before_first_comma L q -> q = "".
Proof.
  intros [_ Hp] [Hq1 Hq2]. destruct q as [|b q]; [done|]. exfalso.
  assert (exists L', L = String b L') as [L' ->].
  { destruct Hq2 as [-> | [rest ->]]; str; eauto. }
  destruct Hp as [Hp | [rest Hp]]; str; [done|].
  injection Hp as -> _. apply Hq1. by exists "", q.
Qed.

Lemma before_first_comma_unique (L p q : string) :
  before_first_comma L p -> before_first_comma L q -> p = q.
Proof.
  revert L q. induction p as [|a p IH]; intros L q Hp Hq.
  - symmetry. by apply (before_first_comma_nil L).
  - destruct q as [|b q].
    + by apply (before_first_comma_nil L).
    + assert (exists L', L = String a L' /\ a = b) as (L' & -> & <-).
      { destruct Hp as [_ [-> | [r1 ->]]]; destruct Hq as [_ [Hq | [r2 Hq]]];
          str; injection Hq as -> _; eauto. }
      f_equal. apply (IH L'); by eapply before_first_comma_tail.
Qed.

(** ** The mapper *)

Section MapperFacts.
Context `{Constants}.

Lemma find_keyword_Some (L : string) (m : WasteMapping) (k : string) :
  find_keyword (toLowerCase L) m = Some k -> k ∈ keywords m /\ keyword_hits L k.
Proof.
  unfold find_keyword. intros Hf. apply find_some in Hf as [Hin Hinc].
  split; [by apply list_elem_of_In | by apply includes_spec].
Qed.

Lemma find_keyword_None (L : string) (m : WasteMapping) :
  find_keyword (toLowerCase L) m = None <-> ~ rule_matches L m.
Proof.
  unfold find_keyword, rule_matches, keyword_hits. split.
  - intros Hf [k [Hin Hk]]. apply list_elem_of_In in Hin.
    apply (find_none _ _ Hf) in Hin. apply includes_false in Hin. done.
  - intros Hno. induction (keywords m) as [|k ks IH]; [done|]. simpl.
    destruct (includes (toLowerCase L) (toLowerCase k)) eqn:Hinc.
    + exfalso. apply Hno. exists k. split; [left | by apply includes_spec].
    + apply IH. intros [k' [Hin Hk']]. apply Hno. exists k'. split; [by right | done].
Qed.

Lemma loop_skip (L : string) (c : float) (l1 l2 : list WasteMapping) :
  Forall (fun m => ~ rule_matches L m) l1 ->
  mapLabelToWaste_loop L c (l1 ++ l2)%list = mapLabelToWaste_loop L c l2.
Proof.
  induction 1 as [|m l1 Hm _ IH]; [done|]. simpl.
  apply find_keyword_None in Hm. by rewrite Hm.
Qed.

Lemma loop_None (L : string) (c : float) (l : list WasteMapping) :
  (forall m, m ∈ l -> ~ rule_matches L m) -> mapLabelToWaste_loop L c l = None.
Proof.
  intros Hno. rewrite <- (app_nil_r l), loop_skip; [done|].
  apply Forall_forall. intros m Hm. by apply Hno.
Qed.

Lemma loop_fields (L : string) (c : float) (l : list WasteMapping) (r : ClassificationResult) :
  mapLabelToWaste_loop L c l = Some r ->
  confidence r = c /\ label r = first_alias L /\
  exists m, m ∈ l /\ category r = mapping_category m /\
    disposalInstructions r = instructions m /\
    reasoning r = "Identified as '" ++ first_alias L ++
      "' which typically falls under " ++ category_value (mapping_category m) ++ ".".
Proof.
  induction l as [|m l IH]; [done|]. simpl. intros Hr.
  assert (mapLabelToWaste_loop L c l = Some r ->
          confidence r = c /\ label r = first_alias L /\
          exists m0, m0 ∈ m :: l /\ category r = mapping_category m0 /\
            disposalInstructions r = instructions m0 /\
            reasoning r = "Identified as '" ++ first_alias L ++
              "' which typically falls under " ++ category_value (mapping_category m0) ++ ".")
    as Hrest.
  { intros Hl. destruct (IH Hl) as (? & ? & m0 & ? & ?).
    repeat split; try done. exists m0. split; [by right | done]. }
  destruct (find_keyword (toLowerCase L) m) as [k|]; [|by apply Hrest].
  destruct (truthy k); [|by apply Hrest].
  injection Hr as <-. simpl. repeat split. exists m. split; [left | done].
Qed.

Lemma find_first {A : Type} (f : A -> bool) (l : list A) (x : A) :
  List.find f l = Some x <->
  exists before after,
    l = (before ++ x :: after)%list /\ f x = true /\
    forall y, y ∈ before -> f y = false.
Proof.
  induction l as [|a l IH]; simpl.
  - split; [done|]. intros (before & after & Hl & _). by destruct before.
  - destruct (f a) eqn:Hfa.
    + split.
      * intros [= <-]. exists [], l. repeat split; [done|].
        intros y Hy. by apply not_elem_of_nil in Hy.
      * intros ([|b before] & after & Hl & Hfx & Hbefore); simpl in Hl.
        -- by injection Hl as <- _.
        -- injection Hl as <- _. rewrite (Hbefore a) in Hfa; [done | left].
    + rewrite IH. split.
      * intros (before & after & -> & Hfx & Hbefore). exists (a :: before), after.
        repeat split; [done|]. intros y Hy.
        apply elem_of_cons in Hy as [-> | Hy]; [done | by apply Hbefore].
      * intros ([|b before] & after & Hl & Hfx & Hbefore); simpl in Hl.
        -- injection Hl as <- _. congruence.
        -- injection Hl as <- ->. exists before, after. repeat split; [done|].
           intros y Hy. apply Hbefore. by right.
Qed.

(** [find] answers the first keyword of the rule that occurs in the label. *)
Lemma find_keyword_first_hit (L : string) (m : WasteMapping) (k : string) :
  find_keyword (toLowerCase L) m = Some k <-> first_hit L m k.
Proof.
  unfold find_keyword, first_hit, keyword_hits. rewrite find_first. split.
  - intros (before & after & Hl & Hk & Hbefore). exists before, after.
    split; [done|]. split; [by apply includes_spec|].
    intros k' Hk'. apply includes_false. by apply Hbefore.
  - intros (before & after & Hl & Hk & Hbefore). exists before, after.
    split; [done|]. split; [by apply includes_spec|].
    intros k' Hk'. apply includes_false. by apply Hbefore.
Qed.

Lemma first_hit_unique (L : string) (m : WasteMapping) (k k' : string) :
  first_hit L m k -> first_hit L m k' -> k = k'.
Proof.
  intros Hk Hk'. apply find_keyword_first_hit in Hk, Hk'. congruence.
Qed.





Lemma rule_fires_matches (L : string) (m : WasteMapping) :
  rule_fires L m -> rule_matches L m.
Proof.
  intros (k & (before & after & Hl & Hk & _) & _). exists k. split; [|done].
  rewrite Hl. apply elem_of_app. right. left.
Qed.

(** For a rule without the empty string among its keywords, to fire is to
    have a keyword that is a case-insensitive substring of the label. *)
Lemma rule_fires_iff_matches (L : string) (m : WasteMapping) :
  "" ∉ keywords m -> (rule_fires L m <-> rule_matches L m).
Proof.
  intros Hne. split; [apply rule_fires_matches|]. intros Hm.
  destruct (find_keyword (toLowerCase L) m) as [k|] eqn:Hf.
  - exists k. split; [by apply find_keyword_first_hit|].
    apply find_keyword_Some in Hf as [Hin _]. by intros ->.
  - by apply find_keyword_None in Hf.
Qed.

Lemma ascii_toLowerCase_app (s t : string) :
  ascii_toLowerCase (s ++ t) = ascii_toLowerCase s ++ ascii_toLowerCase t.
Proof. induction s as [|a s IH]; [done|]. str. simpl. str. by rewrite IH. Qed.

Lemma ascii_toLowerCase_split (s x y : string) :
  ascii_toLowerCase s = x ++ y ->
  exists s1 s2, s = s1 ++ s2 /\ ascii_toLowerCase s1 = x /\ ascii_toLowerCase s2 = y.
Proof.
  revert s. induction x as [|a x IH]; intros s Hs.
  - by exists "", s.
  - destruct s as [|c s]; str; simpl in Hs; [done|].
    injection Hs as Hc Hs. destruct (IH s Hs) as (s1 & s2 & -> & H1 & H2).
    exists (String c s1), s2. str. simpl. by rewrite Hc, H1.
Qed.

(** On strings of ASCII characters, where [toLowerCase] is known, a keyword
    is a case-insensitive substring of the label exactly when it occurs in
    the label itself up to the case of letters. *)
Lemma keyword_hits_ascii (L k : string) :
  ascii_only L = true -> ascii_only k = true ->
  (keyword_hits L k <-> occurs_ignoring_case k L).
Proof.
  intros HL Hk. unfold keyword_hits, substring, occurs_ignoring_case.
  rewrite (toLowerCase_ascii L HL), (toLowerCase_ascii k Hk). split.
  - intros (pre & post & Hl).
    apply ascii_toLowerCase_split in Hl as (s1 & s2 & -> & H1 & H2).
    apply ascii_toLowerCase_split in H2 as (mid & s3 & -> & Hmid & H3).
    by exists s1, mid, s3.
  - intros (pre & mid & post & -> & Hmid).
    exists (ascii_toLowerCase pre), (ascii_toLowerCase post).
    by rewrite !ascii_toLowerCase_app, Hmid.
Qed.


(** C2. When no rule has a keyword that is a case-insensitive substring of
    the label, the answer is [UNKNOWN] with [UNKNOWN_INSTRUCTIONS] and the
    reasoning that the label could not be matched with high confidence;
    and, match or no match, the confidence is handed through unchanged. *)
Theorem mapLabelToWaste_unknown (L : string) (c : float) :
  confidence (mapLabelToWaste L c) = c /\
  ((forall m, m ∈ WASTE_MAPPINGS -> ~ rule_matches L m) ->
   category (mapLabelToWaste L c) = UNKNOWN /\
   disposalInstructions (mapLabelToWaste L c) = UNKNOWN_INSTRUCTIONS /\
   reasoning (mapLabelToWaste L c) =
     "The system detected '" ++ first_alias L ++
     "' but could not match it to a specific waste stream with high confidence.").
Proof.
  unfold mapLabelToWaste. split.
  - destruct (mapLabelToWaste_loop L c WASTE_MAPPINGS) as [r|] eqn:Hl; [|done].
    by apply loop_fields in Hl as [-> _].
  - intros Hno. by rewrite (loop_None L c _ Hno).
Qed.

(** C9. The [label] of a result of [mapLabelToWaste] or [getUnknownResult]
    is [L.split(',')[0]], the part of the classifier label before its first
    comma, and not the whole label when it has a comma; the reasoning embeds
    that same part. *)
Theorem label_is_first_alias (L : string) (c : float) :
  let r := mapLabelToWaste L c in
  let u := getUnknownResult (Some L) (Some c) in
  label r = first_alias L /\ label u = first_alias L /\
  before_first_comma L (first_alias L) /\
  (substring "," L -> label r <> L /\ label u <> L) /\
  reasoning u = "The system detected '" ++ first_alias L ++
    "' but could not match it to a specific waste stream with high confidence." /\
  (reasoning r = reasoning u \/
   exists m, m ∈ WASTE_MAPPINGS /\
     reasoning r = "Identified as '" ++ first_alias L ++
       "' which typically falls under " ++ category_value (mapping_category m) ++ ".").
Proof.
  intros r u.
  assert (label r = first_alias L) as Hr.
  { subst r. unfold mapLabelToWaste.
    destruct (mapLabelToWaste_loop L c WASTE_MAPPINGS) as [r|] eqn:Hl; [|done].
    by apply loop_fields in Hl as (_ & -> & _). }
  pose proof (first_alias_spec L) as Hspec.
  split; [done|]. split; [done|]. split; [done|]. split; [|split; [done|]].
  - intros Hcomma. destruct Hspec as [Hn _].
    split; [rewrite Hr|simpl]; intros Heq; by rewrite Heq in Hn.
  - subst r u. unfold mapLabelToWaste.
    destruct (mapLabelToWaste_loop L c WASTE_MAPPINGS) as [r|] eqn:Hl; [|by left].
    apply loop_fields in Hl as (_ & _ & m & Hin & _ & _ & Hreason). right. eauto.
Qed.

End MapperFacts.



Lemma mapLabelToWaste_unknown_witness :
  @category (@mapLabelToWaste example_constants "xyz-nonsense-item" 0.33%float) = UNKNOWN /\
  confidence (@mapLabelToWaste example_constants "xyz-nonsense-item" 0.33%float) = 0.33%float.
Proof.
  destruct (@mapLabelToWaste_unknown example_constants "xyz-nonsense-item" 0.33%float)
    as [Hc Hu].
  split; [|exact Hc]. apply Hu.
  intros m Hin. apply find_keyword_None.
  apply list_elem_of_In in Hin. simpl in Hin.
  destruct Hin as [<- | [<- | []]]; reflexivity.
Defined.

Lemma label_is_first_alias_witness :
  label (@mapLabelToWaste example_constants "banana, plantain" 0.91%float) = "banana" /\
  label (@mapLabelToWaste example_constants "banana, plantain" 0.91%float)
    <> "banana, plantain".
Proof.
  destruct (@label_is_first_alias example_constants "banana, plantain" 0.91%float)
    as (Hr & _ & _ & Hne & _).
  split; [exact Hr|]. apply Hne. by exists "banana", " plantain".
Defined.

(** A rule whose keyword list holds the empty string before the keyword
    that occurs in the label is passed over: [find] answers the empty
    string, which is falsy. *)
Example empty_keyword_is_skipped :
  category (@mapLabelToWaste empty_keyword_constants "banana" 0.91%float) = UNKNOWN.
Proof. reflexivity. Qed.

(** ** [loadModel] *)

Section ClassifierFacts.
Context `{Constants}.

Lemma run_loadModel_loaded (w : World) (m : MobileNet) :
  model (this w) = Some m -> run loadModel w = (w, Done (Fulfilled tt)).
Proof. intros Hm. unfold loadModel. cbn. by rewrite Hm. Qed.

(** A call that finds [isModelLoading] set returns at once and leaves the
    state as it is. *)
Lemma run_loadModel_loading (w : World) :
  loading w -> run loadModel w = (w, Done (Fulfilled tt)).
Proof. intros [Hm Hl]. unfold loadModel. cbn. by rewrite Hm, Hl. Qed.

(** A call on the unloaded classifier sets the flag and awaits [tf.ready()]. *)
Lemma run_loadModel_unloaded (w : World) :
  unloaded w ->
  exists k, run loadModel w = (set_isModelLoading true w, Suspended TfReady k) /\
    loading (set_isModelLoading true w).
Proof.
  intros [Hm Hl]. unfold loadModel. cbn. rewrite Hm, Hl. cbn.
  eexists. split; [reflexivity | done].
Qed.

(** While a load is under way, however many further calls are made, each
    returns at once. *)
Lemma call_all_loading (w : World) (n : nat) :
  loading w ->
  call_all (replicate n loadModel) w = (w, replicate n (Done (Fulfilled tt))).
Proof.
  intros Hl. induction n as [|n IH]; [done|].
  cbn [replicate call_all]. by rewrite (run_loadModel_loading w Hl), IH.
Qed.

(** C3 (amended). Of [n + 1] calls of [loadModel] made on the unloaded
    classifier before the load settles, the first one starts the only load
    attempt and stays suspended on it; each of the [n] others returns
    fulfilled at once, while the model is still absent, without waiting for
    the load and without touching the state. *)
Theorem loadModel_concurrent_calls (w : World) (n : nat) :
  unloaded w ->
  exists k,
    call_all (replicate (S n) loadModel) w =
      (set_isModelLoading true w,
       Suspended TfReady k :: replicate n (Done (Fulfilled tt))) /\
    loading (set_isModelLoading true w).
Proof.
  intros Hw. destruct (run_loadModel_unloaded w Hw) as (k & Hrun & Hl).
  exists k. split; [|done].
  cbn [replicate call_all]. by rewrite Hrun, (call_all_loading _ n Hl).
Qed.

Lemma loadModel_concurrent_calls_witness :
  exists k,
    call_all (replicate 3 loadModel) fresh_world =
      (set_isModelLoading true fresh_world,
       [Suspended TfReady k; Done (Fulfilled tt); Done (Fulfilled tt)]).
Proof.
  destruct (loadModel_concurrent_calls fresh_world 2) as (k & Hk & _).
  - split; reflexivity.
  - exists k. exact Hk.
Defined.

(** The second of two concurrent callers is fulfilled before the load has
    delivered a model, and stays fulfilled when that load then fails: it
    neither waits for the attempt nor shares its outcome. *)
Lemma loadModel_second_caller_does_not_wait :
  match call_all [loadModel; loadModel] fresh_world with
  | (w1, [first; second]) =>
      started_load first /\
      second = Done (Fulfilled tt) /\
      model (this w1) = None /\
      snd (resume (answers (Rejected "offline") (Rejected "offline")
                     (Rejected "") (Rejected "")) first w1)
        = Done (Rejected load_error)
  | _ => False
  end.
Proof. cbn. repeat split. Qed.

(** C7. A load attempt that fails, at [tf.ready()] or at
    [mobilenet.load()], rejects with the user-facing message and leaves the
    classifier as it was before the attempt, not loading and without a
    model; the next call of [loadModel] starts a new attempt, which ends
    with the model in place when its promises are fulfilled. *)
Theorem loadModel_failure_not_cached (w : World) (ready : Settled unit)
    (load : Settled MobileNet) (p : Settled (option (list Prediction))) (i : Settled unit)
    (m : MobileNet) :
  unloaded w ->
  (ready = Fulfilled tt -> exists reason, load = Rejected reason) ->
  let (w', r) := exec (answers ready load p i) loadModel w in
  r = Rejected load_error /\
  this w' = this w /\
  (exists k, run loadModel w' = (set_isModelLoading true w', Suspended TfReady k)) /\
  let (w'', r') := exec (answers (Fulfilled tt) (Fulfilled m) p i) loadModel w' in
  r' = Fulfilled tt /\ model (this w'') = Some m /\ isModelLoading (this w'') = false.
Proof.
  intros [Hm Hl] Hfail. unfold loadModel.
  destruct w as [[mo lo] urls next con]. simpl in Hm, Hl. subst mo lo.
  destruct ready as [[]|reason].
  - destruct (Hfail eq_refl) as [reason ->]. cbn. repeat split. eauto.
  - cbn. repeat split. eauto.
Qed.

Lemma loadModel_failure_not_cached_witness :
  exec (answers (Fulfilled tt) (Rejected "offline") (Rejected "") (Rejected ""))
    loadModel fresh_world =
  ({| this := {| model := None; isModelLoading := false |};
      objectURLs := ∅; nextURL := 1%positive;
      console := ["Error loading MobileNet model:"] |},
   Rejected load_error).
Proof.
  pose proof (loadModel_failure_not_cached fresh_world (Fulfilled tt)
                (Rejected "offline") (Rejected "") (Rejected "") (MobileNetV2 0)) as Hw.
  destruct (exec _ loadModel fresh_world) as [w' r] eqn:He.
  destruct Hw as (-> & Hthis & _).
  - split; reflexivity.
  - intros _. by exists "offline".
  - cbn in He. by injection He as <-.
Defined.

(** ** [classifyElement] and [classify] *)

(** C10. Called while the model is absent and a load is under way,
    [loadModel] returns at once without waiting; [classifyElement], which
    awaits that call, then finds the model still absent and throws
    'Model initialization failed', and the state is untouched. The load
    that was under way still delivers its model afterwards. *)
Theorem classifyElement_while_loading (w0 : World) (element : Element) (m : MobileNet)
    (p : Settled (option (list Prediction))) (i : Settled unit) :
  unloaded w0 ->
  let ok := answers (Fulfilled tt) (Fulfilled m) p i in
  let (w1, first_load) := run loadModel w0 in
  loading w1 /\ started_load first_load /\
  run loadModel w1 = (w1, Done (Fulfilled tt)) /\
  (exists k, run (classifyElement element) w1 = (w1, Suspended PromiseJob k)) /\
  resume ok (snd (run (classifyElement element) w1)) w1
    = (w1, Done (Rejected "Model initialization failed")) /\
  let (w2, first_load') := resume ok first_load w1 in
  let (w3, first_load'') := resume ok first_load' w2 in
  first_load'' = Done (Fulfilled tt) /\ model (this w3) = Some m.
Proof.
  intros [Hm Hl] ok.
  destruct w0 as [[mo lo] urls next con]. simpl in Hm, Hl. subst mo lo.
  cbn. repeat split. eauto.
Qed.

(** [classifyElement] with the model in place: the top prediction goes
    through [mapLabelToWaste], an empty or absent list gives the fallback
    result, a failing inference is rethrown as 'Neural analysis failed'. *)
Lemma exec_classifyElement_ready (w : World) (m : MobileNet) (element : Element)
    (a : Answers) :
  model (this w) = Some m ->
  exec a (classifyElement element) w =
  match a _ (ModelClassify m element) with
  | Fulfilled (Some (topResult :: _)) =>
      (w, Fulfilled (mapLabelToWaste (className topResult) (probability topResult)))
  | Fulfilled _ => (w, Fulfilled (getUnknownResult None None))
  | Rejected _ =>
      ({| this := this w; objectURLs := objectURLs w; nextURL := nextURL w;
          console := "Inference error:" :: console w |},
       Rejected "Neural analysis failed")
  end.
Proof.
  intros Hm. unfold classifyElement. cbn. rewrite Hm. cbn. rewrite Hm. cbn.
  destruct (a _ (ModelClassify m element)) as [[[|top rest]|]|reason]; reflexivity.
Qed.

Lemma revoked_not_registered (url : positive) (urls : gset positive) :
  url ∉ urls ∖ {[url]}.
Proof. intros [_ Hn]%elem_of_difference. apply Hn. by apply elem_of_singleton. Qed.

Ltac exits :=
  repeat first
    [ progress cbn
    | intro
    | match goal with
      | |- context [match ?x with _ => _ end] => destruct x eqn:?
      end ].

(** C8. [classify] revokes the object URL it created on every way out,
    whether the classification succeeds, the model or the inference fails,
    or the image cannot be decoded; in that last case the URL is revoked
    and the promise is rejected with 'Failed to process image file'. The
    URL is registered for as long as the image is being decoded. *)
Theorem classify_releases_url (file : File) (w : World) :
  all_exits (classify file) w (fun w' _ => nextURL w ∉ objectURLs w') /\
  exists k,
    run (classify file) w =
      ({| this := this w; objectURLs := {[nextURL w]} ∪ objectURLs w;
          nextURL := Pos.succ (nextURL w); console := console w |},
       Suspended (ImageLoad (HTMLImageElement (nextURL w))) k) /\
    forall reason w',
      run (k (Rejected reason)) w' =
        ({| this := this w'; objectURLs := objectURLs w' ∖ {[nextURL w]};
            nextURL := nextURL w'; console := console w' |},
         Done (Rejected "Failed to process image file")).
Proof.
  split.
  - unfold classify, classifyElement, loadModel. exits; eapply revoked_not_registered; eassumption.
  - unfold classify. cbn. eexists. split; [reflexivity|]. intros reason w'. reflexivity.
Qed.
End ClassifierFacts.

Lemma classifyElement_while_loading_witness :
  resume (answers (Fulfilled tt) (Fulfilled (MobileNetV2 0)) (Rejected "") (Rejected ""))
    (snd (run (@classifyElement example_constants HTMLVideoElement)
            (set_isModelLoading true fresh_world)))
    (set_isModelLoading true fresh_world)
  = (set_isModelLoading true fresh_world, Done (Rejected "Model initialization failed")).
Proof.
  pose proof (@classifyElement_while_loading example_constants fresh_world HTMLVideoElement
                (MobileNetV2 0) (Rejected "") (Rejected "")) as Hw.
  cbv zeta in Hw. destruct (run loadModel fresh_world) as [w1 s] eqn:Hrun.
  cbn in Hrun. injection Hrun as <- <-.
  destruct Hw as (_ & _ & _ & _ & Hthrow & _); [split; reflexivity|].
  exact Hthrow.
Defined.


(** ** The live scan *)

Lemma reachable_page_granted : reachable page_granted.
Proof.
  eapply reachable_step; [apply reachable_mount|].
  exact (step_granted mount [7] eq_refl).
Qed.

Lemma reachable_page_ready : reachable page_ready.
Proof.
  eapply reachable_step; [apply reachable_page_granted|]. apply step_video.
Qed.

Lemma reachable_page_inferring : reachable page_inferring.
Proof.
  eapply reachable_step; [apply reachable_page_ready|].
  apply (step_timer page_ready 1%Z live_render). by vm_compute.
Qed.

Lemma reachable_page_deactivated : reachable page_deactivated.
Proof.
  eapply reachable_step; [apply reachable_page_inferring|].
  apply step_deactivate. reflexivity.
Qed.

Lemma step_page_late : step page_deactivated page_late.
Proof.
  apply (step_settled page_deactivated [] live_render [] (Fulfilled late_result)).
  by vm_compute.
Qed.

(** *** The invariant of the sampling loop *)

Ltac open_page p :=
  let act := fresh "act" in let vid := fresh "vid" in let err := fresh "err" in
  let str := fresh "str" in let req := fresh "req" in let busy := fresh "busy" in
  let acq := fresh "acq" in let tm := fresh "tm" in let nt := fresh "nt" in
  let inf := fresh "inf" in let live := fresh "live" in
  let res := fresh "res" in let snk := fresh "snk" in
  destruct p as [act [vid err str req busy] acq tm nt inf live res snk];
  cbn [isActive view acquiring timers nextTimer inflight live_tracks result sink
       videoRef error isStreaming requestRef isProcessingRef] in *.

Lemma page_inv_quiet (p : Page) :
  acquiring p = false -> timers p = ∅ -> inflight p = [] ->
  (isActive p = true -> tracks_ok p) ->
  (isActive p = true -> is_Some (videoRef (view p))) -> (0 < nextTimer p)%Z ->
  page_inv p.
Proof.
  intros Hacq Htm Hinf Htr Hvid Hnt. split; [| | |done..].
  - left. rewrite Hinf. split; [done | simpl; lia].
  - intros Hacq'. congruence.
  - intros _ Hne. congruence.
Qed.

Lemma page_inv_scheduleNext (r : Render) (p : Page) :
  acquiring p = false -> timers p = ∅ -> inflight p = [] ->
  (isActive p = true -> tracks_ok p) ->
  (isActive p = true -> is_Some (videoRef (view p))) -> (0 < nextTimer p)%Z ->
  page_inv (scheduleNext r p).
Proof.
  intros Hacq Htm Hinf Htr Hvid Hnt. unfold scheduleNext.
  destruct (r_isActive r && r_isStreaming r); [|by apply page_inv_quiet].
  open_page p. subst. cbn. split; cbn; try done; [|lia].
  right. split; [done|]. exists nt, r. rewrite insert_empty. repeat split. lia.
Qed.

Lemma page_inv_processFrame (r : Render) (p : Page) :
  acquiring p = false -> timers p = ∅ -> inflight p = [] ->
  (isActive p = true -> tracks_ok p) ->
  (isActive p = true -> is_Some (videoRef (view p))) -> (0 < nextTimer p)%Z ->
  page_inv (processFrame r p).
Proof.
  intros Hacq Htm Hinf Htr Hvid Hnt.
  assert (page_inv (scheduleNext r p)) as Hs by by apply page_inv_scheduleNext.
  unfold processFrame.
  destruct (negb (r_isActive r) || negb (r_isStreaming r) || isProcessingRef (view p));
    [exact Hs|].
  destruct (videoRef (view p)) as [video|] eqn:Hv; [|exact Hs].
  destruct (3 <=? readyState video)%Z; [|exact Hs].
  clear Hs. open_page p. subst. split; cbn; try done.
  left. split; [done | simpl; lia].
Qed.

Lemma tracks_ok_stream (p : Page) (video : Video) :
  tracks_ok p -> videoRef (view p) = Some video ->
  live_tracks p ∖ list_to_set (default [] (srcObject video)) = ∅.
Proof.
  intros Htr Hv. apply elem_of_equiv_empty_L.
  intros t [Hin Hnot]%elem_of_difference.
  destruct (Htr t Hin) as (video' & stream & Hv' & Hs & Ht).
  rewrite Hv in Hv'. injection Hv' as <-. rewrite Hs in Hnot. simpl in Hnot.
  apply Hnot. by apply elem_of_list_to_set.
Qed.

(** [stopCamera] on a video element that the ref still holds stops every
    capturing track. *)
Lemma stopCamera_attached (p : Page) (video : Video) :
  tracks_ok p -> videoRef (view p) = Some video -> live_tracks (stopCamera p) = ∅.
Proof.
  intros Htr Hvid. pose proof (tracks_ok_stream p video Htr Hvid) as Hlive.
  assert (srcObject video = None -> live_tracks p = ∅) as Hnone.
  { intros Hs. rewrite Hs in Hlive. simpl in Hlive.
    by rewrite difference_empty_L in Hlive. }
  clear Htr. unfold stopCamera, clearTimeout. open_page p. subst vid.
  destruct video as [[stream|] ready]; cbn in *; [|rewrite (Hnone eq_refl)];
    (destruct req as [id|]; [destruct (id =? 0)%Z|]); done.
Qed.

(** What the unmount leaves behind: no pending timeout and the busy flag
    down; the awaited inference is still awaited, and the tracks that were
    capturing still are, the video element being out of reach. *)
Lemma unmount_quiet (p : Page) :
  chain_ok p ->
  timers (unmount p) = ∅ /\ live_tracks (unmount p) = live_tracks p /\
  inflight (unmount p) = inflight p /\
  isProcessingRef (view (unmount p)) = false /\
  isActive (unmount p) = false /\ acquiring (unmount p) = acquiring p /\
  nextTimer (unmount p) = nextTimer p /\
  result (unmount p) = result p /\ sink (unmount p) = sink p /\
  error (view (unmount p)) = error (view p) /\
  isStreaming (view (unmount p)) = false.
Proof.
  intros Hchain. unfold chain_ok in Hchain. unfold unmount, stopCamera, clearTimeout.
  open_page p.
  destruct Hchain as [[-> _] | (_ & id & r & -> & -> & Hne)].
  - destruct req as [id|]; cbn; [destruct (id =? 0)%Z|]; cbn;
      rewrite ?delete_empty; done.
  - apply Z.eqb_neq in Hne. cbn. rewrite Hne. cbn. by rewrite delete_singleton_eq.
Qed.

Lemma page_inv_mount : page_inv mount.
Proof.
  split; cbn.
  - left. split; [done | simpl; lia].
  - done.
  - done.
  - intros _ t Hin. by apply not_elem_of_empty in Hin.
  - by eexists.
  - done.
Qed.

Lemma page_inv_step (p p' : Page) : page_inv p -> step p p' -> page_inv p'.
Proof.
  intros Hinv Hstep. destruct Hstep as [p stream Hacq | p reason Hacq | p n
    | p id r Hid | p before r after outcome Hin | p Hact].
  - (* getUserMedia is fulfilled *)
    destruct Hinv as [_ Hidle _ _ Hvid Hnt].
    destruct (Hidle Hacq) as (Htm & Hinf & Hlive). clear Hidle.
    open_page p. subst. cbn.
    destruct vid as [video|]; cbn.
    + assert (tracks_ok
        {| isActive := act;
           view := {| videoRef := Some {| srcObject := Some stream;
                                          readyState := readyState video |};
                      error := err; isStreaming := true; requestRef := req;
                      isProcessingRef := busy |};
           acquiring := false; timers := ∅; nextTimer := nt; inflight := [];
           live_tracks := ∅ ∪ list_to_set stream; result := res; sink := snk |}) as Htr.
      { intros t Ht. cbn in *. eexists _, stream. repeat split.
        apply elem_of_union in Ht as [Ht | Ht]; [by apply not_elem_of_empty in Ht|].
        by apply elem_of_list_to_set in Ht. }
      destruct str.
      * apply page_inv_quiet; cbn; eauto.
      * unfold scan_effect. cbn. destruct act; cbn.
        -- apply page_inv_processFrame; cbn; eauto.
        -- apply page_inv_quiet; cbn; eauto.
    + assert (act = false) as ->.
      { destruct act; [|done]. by destruct (Hvid eq_refl). }
      destruct str; [|unfold scan_effect; cbn];
        apply page_inv_quiet; cbn; done.
  - (* getUserMedia is rejected *)
    destruct Hinv as [_ Hidle _ Htr Hvid Hnt].
    destruct (Hidle Hacq) as (Htm & Hinf & Hlive).
    apply page_inv_quiet; open_page p; cbn; done.
  - (* the video element changes its readyState *)
    unfold set_readyState. destruct (videoRef (view p)) as [video|] eqn:Hv;
      [|exact Hinv].
    destruct Hinv as [Hchain Hidle Hbusy Htr Hvid Hnt].
    open_page p. subst. split; cbn; eauto.
    intros Hact t Ht. destruct (Htr Hact t Ht) as (video' & stream & Hv & Hs & Hts).
    injection Hv as <-. eexists _, stream. cbn. eauto.
  - (* a timeout fires *)
    destruct Hinv as [Hchain Hidle _ Htr Hvid Hnt].
    assert (acquiring p = false) as Hacq.
    { destruct (acquiring p); [|done]. destruct (Hidle eq_refl) as (Htm & _).
      rewrite Htm in Hid. by rewrite lookup_empty in Hid. }
    destruct Hchain as [[Htm _] | (Hinf & id' & r' & Htm & _)].
    { rewrite Htm in Hid. by rewrite lookup_empty in Hid. }
    rewrite Htm in Hid. apply lookup_singleton_Some in Hid as [<- <-].
    apply page_inv_processFrame; open_page p; cbn; try done.
    subst. apply delete_singleton_eq.
  - (* the awaited classifyElement settles *)
    destruct Hinv as [Hchain Hidle _ Htr Hvid Hnt].
    assert (acquiring p = false) as Hacq.
    { destruct (acquiring p); [|done]. destruct (Hidle eq_refl) as (_ & Hinf & _).
      rewrite Hinf in Hin. by destruct before. }
    assert (timers p = ∅ /\ before = [] /\ after = []) as (Htm & -> & ->).
    { destruct Hchain as [[Htm Hlen] | (Hinf & _)].
      - rewrite Hin, length_app in Hlen. simpl in Hlen.
        split; [done|]. destruct before, after; simpl in Hlen; try lia. done.
      - rewrite Hinf in Hin. by destruct before. }
    unfold processFrame_settled.
    apply page_inv_scheduleNext; destruct outcome as [result|reason];
      unfold handleLiveResult; try destruct (0.2 <? confidence result)%float;
      open_page p; cbn; done.
  - (* the user leaves live mode *)
    destruct Hinv as [Hchain Hidle _ _ _ Hnt].
    destruct (unmount_quiet p Hchain)
      as (Htm & Hlive & Hinf & Hbusy & Hact' & Hacq' & Hnt' & _).
    split.
    + left. split; [done|]. rewrite Hinf.
      destruct Hchain as [[_ Hlen] | [-> _]]; [done | simpl; lia].
    + rewrite Hacq', Hinf, Hlive. intros Hacq.
      by destruct (Hidle Hacq) as (_ & ? & ?).
    + rewrite Hact'. done.
    + rewrite Hact'. done.
    + rewrite Hact'. done.
    + by rewrite Hnt'.
Qed.

Lemma reachable_inv (p : Page) : reachable p -> page_inv p.
Proof.
  induction 1 as [|p p' _ IH Hstep]; [apply page_inv_mount|].
  by apply (page_inv_step p p').
Qed.

(** What the end of [processFrame] does with the result it was awaiting. *)
Lemma processFrame_settled_result (r : Render) (late : ClassificationResult) (p : Page) :
  let p' := processFrame_settled r (Fulfilled late) p in
  if (0.2 <? confidence late)%float
  then result p' = Some late /\ sink p' = late :: sink p
  else result p' = result p /\ sink p' = sink p.
Proof.
  unfold processFrame_settled, handleLiveResult, scheduleNext.
  destruct (0.2 <? confidence late)%float;
    destruct (r_isActive r && r_isStreaming r); by open_page p.
Qed.

(** With the busy flag up, [processFrame] starts nothing. *)
Lemma processFrame_busy (r : Render) (p : Page) :
  isProcessingRef (view p) = true -> inflight (processFrame r p) = inflight p.
Proof.
  intros Hbusy. unfold processFrame, scheduleNext. rewrite Hbusy, !orb_true_r.
  destruct (r_isActive r && r_isStreaming r); by open_page p.
Qed.

(** C4. In a session at most one inference is outstanding at any time:
    while one is awaited no timeout is pending, since the next tick is
    scheduled only when the inference has settled, and for as long as the
    session is active the busy flag is up, so that a run of [processFrame]
    would start nothing. *)
Theorem single_flight (p : Page) :
  reachable p ->
  length (inflight p) <= 1 /\
  (inflight p <> [] -> timers p = ∅) /\
  (isActive p = true -> inflight p <> [] ->
   isProcessingRef (view p) = true /\
   forall r, inflight (processFrame r p) = inflight p).
Proof.
  intros [Hchain _ Hbusy _ _ _]%reachable_inv. repeat split.
  - destruct Hchain as [[_ Hlen] | [-> _]]; [done | simpl; lia].
  - intros Hne. by destruct Hchain as [[Htm _] | [Hinf _]].
  - by apply Hbusy.
  - intros r. apply processFrame_busy. by apply Hbusy.
Qed.

Lemma single_flight_witness :
  inflight page_inferring = [live_render] /\
  length (inflight page_inferring) <= 1 /\
  timers page_inferring = ∅.
Proof.
  destruct (single_flight page_inferring reachable_page_inferring) as (Hlen & Htm & _).
  split; [reflexivity|]. split; [exact Hlen|]. apply Htm. discriminate.
Defined.

(** C5 (amended). Deactivating an active session, which [App] does by
    unmounting the component, cancels the pending timeout and lowers the
    busy flag. An inference that is awaited at that moment stays awaited,
    and when it is fulfilled its result still goes to [onResult], which
    stores it when its confidence exceeds 0.2. *)
Theorem deactivation_cleanup (p : Page) :
  reachable p -> isActive p = true ->
  let p' := unmount p in
  step p p' /\ isActive p' = false /\
  timers p' = ∅ /\ isProcessingRef (view p') = false /\
  inflight p' = inflight p /\
  forall r late,
    inflight p' = [r] ->
    let p'' := processFrame_settled r (Fulfilled late) (set_inflight [] p') in
    step p' p'' /\
    ((0.2 <? confidence late)%float = true ->
     result p'' = Some late /\ sink p'' = late :: sink p).
Proof.
  intros Hreach Hact p'.
  destruct (unmount_quiet p (inv_chain p (reachable_inv p Hreach)))
    as (Htm & _ & Hinf & Hbusy & Hact' & _ & _ & _ & Hsink & _).
  fold p' in Htm, Hinf, Hbusy, Hact', Hsink.
  split; [by apply step_deactivate|]. split; [done|].
  split; [done|]. split; [done|]. split; [done|].
  intros r late Hr p''. split.
  - apply (step_settled p' [] r [] (Fulfilled late)). exact Hr.
  - intros Hconf. subst p''.
    pose proof (processFrame_settled_result r late (set_inflight [] p')) as Hlate.
    cbv zeta in Hlate. rewrite Hconf in Hlate. destruct Hlate as [Hres' Hsink'].
    split; [exact Hres'|]. rewrite Hsink'. f_equal.
    change (sink (set_inflight [] p')) with (sink p'). by rewrite Hsink.
Qed.

Lemma deactivation_cleanup_witness :
  timers page_deactivated = ∅ /\ isProcessingRef (view page_deactivated) = false /\
  inflight page_deactivated = [live_render] /\
  result page_late = Some late_result.
Proof.
  destruct (deactivation_cleanup page_inferring reachable_page_inferring eq_refl)
    as (_ & _ & Htm & Hbusy & Hinf & Hlate).
  split; [exact Htm|]. split; [exact Hbusy|]. split; [exact Hinf|].
  destruct (Hlate live_render late_result eq_refl) as [_ Hres].
  by destruct (Hres eq_refl) as [Hres' _].
Defined.

(** The session of [page_deactivated] has been deactivated, and the
    inference it was awaiting then delivers [late_result] to the [result]
    state of the application. *)
Lemma late_result_is_delivered :
  reachable page_deactivated /\ isActive page_deactivated = false /\
  sink page_deactivated = [] /\
  step page_deactivated page_late /\
  sink page_late = [late_result] /\ result page_late = Some late_result.
Proof.
  split; [apply reachable_page_deactivated|]. split; [reflexivity|].
  split; [reflexivity|]. split; [apply step_page_late|]. split; reflexivity.
Qed.

(** *** The confidence gate *)

Lemma SFcompare_swap (x y : spec_float) :
  SFcompare y x = option_map CompOpp (SFcompare x y).
Proof.
  destruct x as [[]|[]| |[] m1 e1], y as [[]|[]| |[] m2 e2]; try reflexivity; simpl;
    rewrite (Z.compare_antisym e1 e2); destruct (e1 ?= e2)%Z; simpl; try reflexivity;
    rewrite ?(Pos.compare_cont_antisym m1 m2 Eq); reflexivity.
Qed.

(** On doubles, [c <= t] excludes [t < c]. *)
Lemma leb_not_ltb (c t : float) : (c <=? t)%float = true -> (t <? c)%float = false.
Proof.
  rewrite leb_spec, ltb_spec. unfold SFleb, SFltb.
  rewrite (SFcompare_swap (Prim2SF c) (Prim2SF t)).
  destruct (SFcompare (Prim2SF c) (Prim2SF t)) as [[]|]; simpl; congruence.
Qed.

(** C6. A result of the live scan reaches the [result] state of the
    application exactly when its confidence is strictly above 0.2: above the
    threshold it is stored, at or below it nothing is stored. *)
Theorem live_result_confidence_gate (r : Render) (late : ClassificationResult) (p : Page) :
  let p' := processFrame_settled r (Fulfilled late) p in
  (sink p' = late :: sink p <-> (0.2 <? confidence late)%float = true) /\
  ((0.2 <? confidence late)%float = true -> result p' = Some late) /\
  ((confidence late <=? 0.2)%float = true -> sink p' = sink p /\ result p' = result p).
Proof.
  intros p'. pose proof (processFrame_settled_result r late p) as Hlate.
  fold p' in Hlate. cbv zeta in Hlate. split; [split|split].
  - intros Hsink. destruct (0.2 <? confidence late)%float; [done|].
    destruct Hlate as [_ Hsame]. rewrite Hsame in Hsink.
    apply (f_equal length) in Hsink. simpl in Hsink. lia.
  - intros Hconf. rewrite Hconf in Hlate. by destruct Hlate.
  - intros Hconf. rewrite Hconf in Hlate. by destruct Hlate.
  - intros Hconf. apply leb_not_ltb in Hconf. rewrite Hconf in Hlate.
    by destruct Hlate.
Qed.

Lemma live_result_confidence_gate_witness :
  result (processFrame_settled live_render (Fulfilled late_result)
            (set_inflight [] page_deactivated)) = Some late_result /\
  sink (processFrame_settled live_render
          (Fulfilled {| category := UNKNOWN; confidence := 0.2%float; label := "";
                        reasoning := ""; disposalInstructions := "" |})
          (set_inflight [] page_deactivated)) = [].
Proof.
  split.
  - apply (live_result_confidence_gate live_render late_result). reflexivity.
  - apply (live_result_confidence_gate live_render
             {| category := UNKNOWN; confidence := 0.2%float; label := "";
                reasoning := ""; disposalInstructions := "" |}
             (set_inflight [] page_deactivated)). reflexivity.
Defined.

(** ** Any number of callers of [loadModel] *)

Lemma loadModel_call_cases (w : World) :
  (isModelLoading (this w) = true \/ is_Some (model (this w))) /\
    (exists r, run loadModel w = (w, Done r)) \/
  unloaded w /\
    exists k, run loadModel w = (set_isModelLoading true w, Suspended TfReady k) /\
      load_cont (Suspended TfReady k).
Proof.
  destruct w as [[[m|] [|]] urls next con].
  - left. split; [by left | by eexists].
  - left. split; [right; by eexists | by eexists].
  - left. split; [by left | by eexists].
  - right. split; [done|]. unfold loadModel. cbn. eexists. split; [reflexivity|].
    constructor.
    + intros [[]|reason] w w' st Hflag Hrun; cbn in Hrun;
        injection Hrun as <- <-; [done | by destruct w as [[? ?] ? ? ?]].
    + intros [[]|reason] w w' st Hflag Hrun; cbn in Hrun;
        injection Hrun as <- <-; [intros _ | done].
      constructor.
      * intros [m|reason] w1 w1' st1 Hflag1 Hrun1; cbn in Hrun1;
          injection Hrun1 as <- <-; by destruct w1 as [[? ?] ? ? ?].
      * intros [m|reason] w1 w1' st1 Hflag1 Hrun1; cbn in Hrun1;
          by injection Hrun1 as <- <-.
Qed.

Lemma load_cont_inv (st : Step unit) :
  load_cont st ->
  match st with
  | Done _ => False
  | Suspended op k =>
      forall r w w' st',
        isModelLoading (this w) = true -> run (k r) w = (w', st') ->
        isModelLoading (this w') = is_suspended st' /\
        (is_suspended st' = true -> load_cont st')
  end.
Proof. destruct 1 as [X op k Hflag Hnext]. intros r w w' st' Hw Hrun. eauto. Qed.

Lemma suspended_app (l1 l2 : list (Step unit)) :
  length (List.filter is_suspended (l1 ++ l2)%list) =
  length (List.filter is_suspended l1) + length (List.filter is_suspended l2).
Proof. by rewrite List.filter_app, length_app. Qed.

Lemma callers_inv_step (s s' : Callers) :
  callers_inv s -> callers_step s s' -> callers_inv s'.
Proof.
  unfold callers_inv, loads_in_flight. intros [Hall Hcount] Hstep.
  destruct Hstep as [[w calls] | [w calls] before X op k after r Hcalls];
    cbn [c_world c_calls] in *.
  - destruct (loadModel_call_cases w) as [[Hbusy [r ->]] | [[Hm Hl] (k & -> & Hk)]];
      cbn [c_world c_calls]; rewrite suspended_app; cbn.
    + split; [|lia]. apply Forall_app. split; [done|]. by constructor.
    + split; [|rewrite Hcount, Hl; lia].
      apply Forall_app. split; [done|]. by constructor.
  - subst calls. apply Forall_app in Hall as [Hbefore Hafter].
    apply Forall_cons in Hafter as [Hk Hafter].
    rewrite suspended_app in Hcount. cbn in Hcount.
    destruct (isModelLoading (this w)) eqn:Hflag; [|lia].
    destruct (run (k r) w) as [w' st] eqn:Hrun.
    destruct (load_cont_inv _ (Hk eq_refl) r w w' st Hflag Hrun) as [Hflag' Hst].
    cbn [c_world c_calls]. rewrite suspended_app. cbn. rewrite Hflag'. split.
    + apply Forall_app. split; [done|]. by constructor.
    + destruct (is_suspended st); cbn; lia.
Qed.

(** X22. However the calls of [loadModel] and the settling of their
    promises interleave, at most one load attempt is in flight, and it is in
    flight exactly while [isModelLoading] is set. *)
Lemma loads_in_flight_at_most_one (w0 : World) (s : Callers) :
  unloaded w0 -> callers_reachable w0 s ->
  loads_in_flight s <= 1 /\
  (loads_in_flight s = 1 <-> isModelLoading (this (c_world s)) = true).
Proof.
  intros [_ Hflag] Hreach.
  assert (callers_inv s) as [_ Hcount].
  { induction Hreach as [|s s' _ IH Hstep].
    - split; [constructor|]. unfold loads_in_flight. cbn. by rewrite Hflag.
    - by apply (callers_inv_step s s'). }
  rewrite Hcount. destruct (isModelLoading (this (c_world s))); split; try lia; done.
Qed.

(** ** Runs of the definitions *)

Example mapLabel_banana :
  @mapLabelToWaste example_constants "banana" 0.91%float =
  {| category := ORGANIC; confidence := 0.91%float; label := "banana";
     reasoning := "Identified as 'banana' which typically falls under Organic.";
     disposalInstructions := "Compost it." |}.
Proof. reflexivity. Qed.

Example mapLabel_nonsense :
  @mapLabelToWaste example_constants "xyz-nonsense-item" 0.33%float =
  {| category := UNKNOWN; confidence := 0.33%float; label := "xyz-nonsense-item";
     reasoning := "The system detected 'xyz-nonsense-item' but could not match it to a specific waste stream with high confidence.";
     disposalInstructions := "Check local guidelines." |}.
Proof. reflexivity. Qed.

(** Both rules match 'plastic fruit bowl'; the earlier one decides. *)
Example mapLabel_tie :
  category (@mapLabelToWaste example_constants "plastic fruit bowl" 0.5%float) = ORGANIC.
Proof. reflexivity. Qed.

(** [classify] from a fresh page: the model is loaded on the way, the top
    prediction is mapped, and no object URL is left. *)
Example classify_success :
  exec (answers (Fulfilled tt) (Fulfilled (MobileNetV2 0))
          (Fulfilled (Some [banana])) (Fulfilled tt))
       (@classify example_constants (Blob "photo.png")) fresh_world =
  ({| this := {| model := Some (MobileNetV2 0); isModelLoading := false |};
      objectURLs := ∅; nextURL := 2%positive;
      console := ["Local MobileNet model loaded successfully."] |},
   Fulfilled
     {| category := ORGANIC; confidence := 0.91%float; label := "banana";
        reasoning := "Identified as 'banana' which typically falls under Organic.";
        disposalInstructions := "Compost it." |}).
Proof. by vm_compute. Qed.

Example classify_inference_failure :
  exec (answers (Fulfilled tt) (Fulfilled (MobileNetV2 0))
          (Rejected "backend lost") (Fulfilled tt))
       (@classify example_constants (Blob "photo.png")) fresh_world =
  ({| this := {| model := Some (MobileNetV2 0); isModelLoading := false |};
      objectURLs := ∅; nextURL := 2%positive;
      console := ["Inference error:"; "Local MobileNet model loaded successfully."] |},
   Rejected "Neural analysis failed").
Proof. by vm_compute. Qed.

Example classify_decode_failure :
  exec (answers (Fulfilled tt) (Fulfilled (MobileNetV2 0))
          (Fulfilled (Some [banana])) (Rejected "not an image"))
       (@classify example_constants (Blob "notes.txt")) fresh_world =
  ({| this := {| model := None; isModelLoading := false |};
      objectURLs := ∅; nextURL := 2%positive; console := [] |},
   Rejected "Failed to process image file").
Proof. by vm_compute. Qed.

(** The cleanup of the unmount finds [videoRef.current] reset, and with it
    no stream to stop: the track that was capturing in [page_inferring] is
    still capturing in [page_deactivated]. *)
Example unmount_leaves_track_live :
  7 ∈ live_tracks page_inferring /\ 7 ∈ live_tracks page_deactivated /\
  videoRef (view page_deactivated) = None.
Proof. split; [by vm_compute|]. split; [by vm_compute | reflexivity]. Qed.

(** After the late result of [page_late] the loop has scheduled a further
    timeout, although the session is no longer active. *)
Example late_result_reschedules :
  isActive page_late = false /\ timers page_late = {[2%Z := live_render]}.
Proof. split; [reflexivity | by vm_compute]. Qed.

(** * Further properties *)

(** ** The mapper *)

Section MapperMore.
Context `{Constants}.

Lemma loop_Some_matches (L : string) (c : float) (l : list WasteMapping)
    (r : ClassificationResult) :
  mapLabelToWaste_loop L c l = Some r ->
  exists m, m ∈ l /\ rule_matches L m /\
    category r = mapping_category m /\ disposalInstructions r = instructions m.
Proof.
  induction l as [|m l IH]; [done|]. simpl. intros Hr.
  assert (mapLabelToWaste_loop L c l = Some r ->
          exists m0, m0 ∈ m :: l /\ rule_matches L m0 /\
            category r = mapping_category m0 /\
            disposalInstructions r = instructions m0) as Hrest.
  { intros Hl. destruct (IH Hl) as (m0 & Hin & Hm0). exists m0.
    split; [by right | done]. }
  destruct (find_keyword (toLowerCase L) m) as [k|] eqn:Hf; [|by apply Hrest].
  destruct (truthy k); [|by apply Hrest].
  injection Hr as <-. exists m. split; [left|]. split; [|done].
  apply find_keyword_Some in Hf as [Hin Hk]. by exists k.
Qed.

(** X1. Whatever the label, the category and the disposal instructions of
    the result are those of a rule of the table that matches the label, or
    else [UNKNOWN] with [UNKNOWN_INSTRUCTIONS]: no other guidance text can
    come out. *)
Theorem mapLabelToWaste_from_table (L : string) (c : float) :
  (category (mapLabelToWaste L c) = UNKNOWN /\
   disposalInstructions (mapLabelToWaste L c) = UNKNOWN_INSTRUCTIONS) \/
  (exists m, m ∈ WASTE_MAPPINGS /\ rule_matches L m /\
     category (mapLabelToWaste L c) = mapping_category m /\
     disposalInstructions (mapLabelToWaste L c) = instructions m).
Proof.
  unfold mapLabelToWaste.
  destruct (mapLabelToWaste_loop L c WASTE_MAPPINGS) as [r|] eqn:Hl.
  - right. by apply (loop_Some_matches L c).
  - left. done.
Qed.

Lemma loop_same_case (L L' : string) (c c' : float) (l : list WasteMapping) :
  toLowerCase L = toLowerCase L' ->
  match mapLabelToWaste_loop L c l, mapLabelToWaste_loop L' c' l with
  | Some r, Some r' =>
      category r = category r' /\ disposalInstructions r = disposalInstructions r'
  | None, None => True
  | _, _ => False
  end.
Proof.
  intros Hcase. induction l as [|m l IH]; [done|]. simpl. rewrite <- Hcase.
  destruct (find_keyword (toLowerCase L) m) as [k|]; [|done].
  by destruct (truthy k).
Qed.

(** X2. The mapper looks at the label in lower case only: two labels that
    differ in the case of their letters get the same category and the same
    instructions. *)
Theorem mapLabelToWaste_ignores_case (L L' : string) (c c' : float) :
  toLowerCase L = toLowerCase L' ->
  category (mapLabelToWaste L c) = category (mapLabelToWaste L' c') /\
  disposalInstructions (mapLabelToWaste L c) = disposalInstructions (mapLabelToWaste L' c').
Proof.
  intros Hcase. unfold mapLabelToWaste.
  pose proof (loop_same_case L L' c c' WASTE_MAPPINGS Hcase) as Hloop.
  destruct (mapLabelToWaste_loop L c WASTE_MAPPINGS),
           (mapLabelToWaste_loop L' c' WASTE_MAPPINGS); done.
Qed.

Lemma find_agree {A : Type} (f g : A -> bool) (l : list A) :
  (forall x, x ∈ l -> f x = g x) -> List.find f l = List.find g l.
Proof.
  induction l as [|x l IH]; [done|]. intros Hfg. simpl.
  rewrite (Hfg x) by left. rewrite IH; [done|]. intros y Hy. apply Hfg. by right.
Qed.

Lemma loop_v1_agrees (L : string) (c : float) (l : list WasteMapping) :
  lowercase_table l ->
  match mapLabelToWaste_v1_loop L c l, mapLabelToWaste_loop L c l with
  | Some r, Some r' =>
      category r = category r' /\ confidence r = confidence r' /\
      disposalInstructions r = disposalInstructions r'
  | None, None => True
  | _, _ => False
  end.
Proof.
  induction l as [|m l IH]; [done|]. intros Hlow. simpl. unfold find_keyword.
  rewrite (find_agree (fun keyword => includes (toLowerCase L) keyword)
             (fun keyword => includes (toLowerCase L) (toLowerCase keyword))).
  - assert (lowercase_table l) as Hl.
    { intros m' k Hm' Hk. apply (Hlow m' k); [by right | done]. }
    specialize (IH Hl).
    destruct (List.find _ (keywords m)) as [k|]; [|done]. by destruct (truthy k).
  - intros k Hk. rewrite (Hlow m k); [done | left | done].
Qed.

(** X3. On a table whose keywords are written in lower case, the earlier
    variant of the mapper, which does not lower-case the keywords, answers
    with the same category, confidence and instructions as the present one;
    the two differ only in the label and the reasoning text. *)
Theorem mapLabelToWaste_v1_agrees (L : string) (c : float) :
  lowercase_table WASTE_MAPPINGS ->
  category (mapLabelToWaste_v1 L c) = category (mapLabelToWaste L c) /\
  confidence (mapLabelToWaste_v1 L c) = confidence (mapLabelToWaste L c) /\
  disposalInstructions (mapLabelToWaste_v1 L c) = disposalInstructions (mapLabelToWaste L c) /\
  label (mapLabelToWaste_v1 L c) = L.
Proof.
  intros Hlow. unfold mapLabelToWaste_v1, mapLabelToWaste.
  pose proof (loop_v1_agrees L c WASTE_MAPPINGS Hlow) as Hloop.
  assert (forall l r, mapLabelToWaste_v1_loop L c l = Some r -> label r = L) as Hlabel.
  { induction l as [|m l IH]; [done|]. simpl. intros r.
    destruct (List.find _ (keywords m)) as [k|]; [|by apply IH].
    destruct (truthy k); [|by apply IH]. by intros [= <-]. }
  destruct (mapLabelToWaste_v1_loop L c WASTE_MAPPINGS) as [r|] eqn:Hv1,
           (mapLabelToWaste_loop L c WASTE_MAPPINGS) as [r'|]; try done.
  destruct Hloop as (? & ? & ?). repeat split; try done. by apply (Hlabel WASTE_MAPPINGS).
Qed.

End MapperMore.

Lemma mapLabelToWaste_ignores_case_witness :
  category (@mapLabelToWaste example_constants "BANANA" 0.5%float) =
  category (@mapLabelToWaste example_constants "banana" 0.91%float).
Proof.
  by destruct (@mapLabelToWaste_ignores_case example_constants "BANANA" "banana"
                 0.5%float 0.91%float eq_refl) as [Hc _].
Defined.

Lemma lowercase_constants_table :
  @lowercase_table lowercase_constants (@WASTE_MAPPINGS lowercase_constants).
Proof.
  intros m k Hm Hk. apply list_elem_of_In in Hm. simpl in Hm.
  destruct Hm as [<- | [<- | []]]; apply list_elem_of_In in Hk; simpl in Hk;
    destruct Hk as [<- | [<- | []]]; reflexivity.
Qed.

Lemma mapLabelToWaste_v1_agrees_witness :
  category (@mapLabelToWaste_v1 lowercase_constants "Plastic Bottle" 0.87%float) =
  category (@mapLabelToWaste lowercase_constants "Plastic Bottle" 0.87%float).
Proof.
  by destruct (@mapLabelToWaste_v1_agrees lowercase_constants "Plastic Bottle" 0.87%float
                 lowercase_constants_table) as [Hc _].
Defined.

(** With a keyword that has a capital letter the two variants part: the
    earlier one never matches it. *)
Example mapLabelToWaste_v1_capital_keyword :
  category (@mapLabelToWaste_v1 example_constants "plastic cup" 0.8%float) = UNKNOWN /\
  category (@mapLabelToWaste example_constants "plastic cup" 0.8%float) = PLASTIC.
Proof. split; reflexivity. Qed.

(** ** Runs of [async] functions *)

Lemma exec_bind {A B : Type} (a : Answers) (p : Async A) (f : A -> Async B) (w : World) :
  exec a (p ≫= f) w =
  let (w', r) := exec a p w in
  match r with
  | Fulfilled x => exec a (f x) w'
  | Rejected e => (w', Rejected e)
  end.
Proof.
  revert w. induction p as [x|e|k IH|w0 k IH|X op k IH]; intros w; try done.
  - apply IH.
  - apply IH.
  - apply IH.
Qed.

Lemma exec_try_catch {A : Type} (a : Answers) (p : Async A) (h : string -> Async A)
    (w : World) :
  exec a (try_catch p h) w =
  let (w', r) := exec a p w in
  match r with
  | Fulfilled x => (w', Fulfilled x)
  | Rejected e => exec a (h e) w'
  end.
Proof.
  revert w. induction p as [x|e|k IH|w0 k IH|X op k IH]; intros w; try done.
  - apply IH.
  - apply IH.
  - apply IH.
Qed.

Lemma exec_await_call {A : Type} (a : Answers) (p : Async A) (w : World) :
  exec a (await_call p) w = exec a p w.
Proof.
  revert w. induction p as [x|e|k IH|w0 k IH|X op k IH]; intros w; try done.
  - apply IH.
  - apply IH.
  - apply IH.
Qed.

(** ** [classifyElement] and [classify], continued *)

Ltac branches :=
  repeat first
    [ progress cbn
    | intro
    | match goal with
      | |- context [match ?x with _ => _ end] => destruct x eqn:?
      end ].

Section ClassifierMore.
Context `{Constants}.

(** X4. With the model in place and no prediction at all, an absent or an
    empty list, [classifyElement] is fulfilled with the fallback result for
    'Unknown Object' at confidence 0, and leaves the state as it is. *)
Theorem classifyElement_no_predictions (w : World) (m : MobileNet) (element : Element)
    (a : Answers) :
  model (this w) = Some m ->
  a _ (ModelClassify m element) = Fulfilled None \/
  a _ (ModelClassify m element) = Fulfilled (Some []) ->
  exec a (classifyElement element) w =
  (w, Fulfilled
        {| category := UNKNOWN; confidence := 0%float; label := "Unknown Object";
           reasoning := "The system detected 'Unknown Object' but could not match it to a specific waste stream with high confidence.";
           disposalInstructions := UNKNOWN_INSTRUCTIONS |}).
Proof.
  intros Hm Hnone. rewrite (exec_classifyElement_ready w m element a Hm).
  by destruct Hnone as [-> | ->].
Qed.

(** X5. With the model in place, only the first prediction counts: the
    result is the mapping of its class name, with its probability as the
    confidence, whatever predictions follow it. *)
Theorem classifyElement_top_prediction (w : World) (m : MobileNet) (element : Element)
    (a : Answers) (top : Prediction) (others : list Prediction) :
  model (this w) = Some m ->
  a _ (ModelClassify m element) = Fulfilled (Some (top :: others)) ->
  exists c,
    exec a (classifyElement element) w = (w, Fulfilled c) /\
    c = mapLabelToWaste (className top) (probability top) /\
    confidence c = probability top /\
    label c = first_alias (className top).
Proof.
  intros Hm Htop. rewrite (exec_classifyElement_ready w m element a Hm), Htop.
  eexists. split; [reflexivity|]. split; [done|].
  destruct (mapLabelToWaste_unknown (className top) (probability top)) as [Hc _].
  destruct (label_is_first_alias (className top) (probability top)) as [Hl _].
  done.
Qed.

(** X6. The first call on an unloaded classifier loads the model, keeps it
    and then does what a call on the loaded classifier does. *)
Theorem classifyElement_loads_on_demand (w : World) (m : MobileNet) (element : Element)
    (a : Answers) :
  unloaded w ->
  a _ TfReady = Fulfilled tt -> a _ MobilenetLoad = Fulfilled m ->
  exec a (classifyElement element) w =
    exec a (classifyElement element) (loaded_from m w) /\
  model (this (fst (exec a (classifyElement element) w))) = Some m /\
  isModelLoading (this (fst (exec a (classifyElement element) w))) = false.
Proof.
  intros [Hm Hl] Hready Hload.
  assert (exec a (classifyElement element) w =
          exec a (classifyElement element) (loaded_from m w)) as Heq.
  { destruct w as [[mo lo] urls next con]. simpl in Hm, Hl. subst mo lo.
    unfold classifyElement, loadModel, loaded_from. cbn.
    rewrite Hready. cbn. rewrite Hload. reflexivity. }
  split; [exact Heq|]. rewrite Heq.
  rewrite (exec_classifyElement_ready (loaded_from m w) m element a eq_refl).
  by destruct (a _ (ModelClassify m element)) as [[[|top rest]|]|reason].
Qed.

(** X7. When the load that the first call starts fails, [classifyElement]
    is rejected with the message of [loadModel], no inference is asked for,
    and the classifier is unloaded as before. *)
Theorem classifyElement_load_failure (w : World) (element : Element) (a : Answers) :
  unloaded w ->
  (a _ TfReady = Fulfilled tt -> exists reason, a _ MobilenetLoad = Rejected reason) ->
  exec a (classifyElement element) w =
  ({| this := this w; objectURLs := objectURLs w; nextURL := nextURL w;
      console := "Error loading MobileNet model:" :: console w |},
   Rejected load_error).
Proof.
  intros [Hm Hl] Hfail.
  destruct w as [[mo lo] urls next con]. simpl in Hm, Hl. subst mo lo.
  unfold classifyElement, loadModel. cbn.
  destruct (a _ TfReady) as [[]|reason] eqn:Hready; cbn; [|done].
  destruct (Hfail eq_refl) as [reason ->]. done.
Qed.

(** X8. However the awaited promises settle and whatever happens while it
    is suspended, [classify] is fulfilled only with the fallback result or
    the mapping of a prediction, and rejected only with one of four
    messages, none of them empty. *)
Theorem classify_outcomes (file : File) (w : World) :
  all_exits (classify file) w (fun _ r =>
    match r with
    | Fulfilled c => mapped_result c
    | Rejected e =>
        (e = load_error \/ e = initialization_error \/ e = inference_error \/
         e = decode_error) /\ truthy e = true
    end).
Proof.
  unfold classify, classifyElement, loadModel, mapped_result. branches;
    first [ by left | right; by eexists | split; [tauto | reflexivity] ].
Qed.

Lemma classifyElement_frame (a : Answers) (element : Element) (w : World) :
  objectURLs (fst (exec a (classifyElement element) w)) = objectURLs w /\
  nextURL (fst (exec a (classifyElement element) w)) = nextURL w.
Proof.
  unfold classifyElement, loadModel. destruct w as [[mo lo] urls next con].
  branches; done.
Qed.

(** X9. When the image loads, [classify] is [classifyElement] on that image
    between creating the object URL and revoking it: same outcome, and the
    state [classifyElement] leaves, less the URL. *)
Theorem classify_is_classifyElement (file : File) (w : World) (a : Answers) :
  a _ (ImageLoad (HTMLImageElement (nextURL w))) = Fulfilled tt ->
  let (url, w1) := App.createObjectURL_now w in
  let (w2, r) := exec a (classifyElement (HTMLImageElement url)) w1 in
  exec a (classify file) w = (revoked url w2, r).
Proof.
  intros Himg. unfold classify, App.createObjectURL_now.
  rewrite exec_bind. cbn [exec createObjectURL]. rewrite Himg.
  rewrite exec_try_catch, exec_bind, exec_await_call.
  destruct (exec a (classifyElement (HTMLImageElement (nextURL w))) _) as [w2 [c|e]];
    reflexivity.
Qed.

Lemma fresh_revoke (url : positive) (urls : gset positive) :
  url ∉ urls -> ({[url]} ∪ urls) ∖ {[url]} = urls.
Proof.
  intros Hnot. apply set_eq. intros u. rewrite elem_of_difference, elem_of_union,
    elem_of_singleton. split; [tauto|]. intros Hu. split; [by right|]. by intros ->.
Qed.

Lemma urls_fresh_next (w : World) : urls_fresh w -> nextURL w ∉ objectURLs w.
Proof. intros Hfresh Hin. apply Hfresh in Hin. by apply Pos.lt_irrefl in Hin. Qed.

(** X10. Run to its end, [classify] leaves the set of registered object
    URLs exactly as it found it, whether the image loads or not; only the
    counter of URLs has moved on by one. *)
Theorem classify_leaves_no_url (file : File) (w : World) (a : Answers) :
  urls_fresh w ->
  objectURLs (fst (exec a (classify file) w)) = objectURLs w /\
  nextURL (fst (exec a (classify file) w)) = Pos.succ (nextURL w) /\
  urls_fresh (fst (exec a (classify file) w)).
Proof.
  intros Hfresh. pose proof (urls_fresh_next w Hfresh) as Hnext.
  assert (objectURLs (fst (exec a (classify file) w)) = objectURLs w /\
          nextURL (fst (exec a (classify file) w)) = Pos.succ (nextURL w)) as [Hu Hn].
  { destruct (a _ (ImageLoad (HTMLImageElement (nextURL w)))) as [[]|reason] eqn:Himg.
    - pose proof (classify_is_classifyElement file w a Himg) as Hc.
      unfold App.createObjectURL_now in Hc.
      pose proof (classifyElement_frame a (HTMLImageElement (nextURL w))
        {| this := this w; objectURLs := {[nextURL w]} ∪ objectURLs w;
           nextURL := Pos.succ (nextURL w); console := console w |}) as [Hfu Hfn].
      destruct (exec a (classifyElement _) _) as [w2 r]. rewrite Hc. cbn in *.
      rewrite Hfu, Hfn. split; [by apply fresh_revoke | done].
    - unfold classify. cbn. rewrite Himg. cbn. split; [by apply fresh_revoke | done]. }
  split; [done|]. split; [done|].
  intros url Hin. rewrite Hu in Hin. rewrite Hn. apply Hfresh in Hin.
  by apply Pos.lt_lt_succ.
Qed.

End ClassifierMore.

Lemma classifyElement_no_predictions_witness :
  snd (exec (answers (Fulfilled tt) (Fulfilled (MobileNetV2 0)) (Fulfilled (Some []))
              (Fulfilled tt))
         (@classifyElement example_constants HTMLCanvasElement)
         (loaded_from (MobileNetV2 0) fresh_world))
  = Fulfilled (@getUnknownResult example_constants None None).
Proof.
  rewrite (@classifyElement_no_predictions example_constants
             (loaded_from (MobileNetV2 0) fresh_world) (MobileNetV2 0) HTMLCanvasElement).
  - reflexivity.
  - reflexivity.
  - right. reflexivity.
Defined.

Lemma classifyElement_top_prediction_witness :
  exists c,
    exec (answers (Fulfilled tt) (Fulfilled (MobileNetV2 0))
            (Fulfilled (Some [banana; {| className := "water bottle";
                                         probability := 0.05%float |}]))
            (Fulfilled tt))
      (@classifyElement example_constants HTMLVideoElement)
      (loaded_from (MobileNetV2 0) fresh_world)
    = (loaded_from (MobileNetV2 0) fresh_world, Fulfilled c) /\
    confidence c = 0.91%float /\ label c = "banana".
Proof.
  destruct (@classifyElement_top_prediction example_constants
              (loaded_from (MobileNetV2 0) fresh_world) (MobileNetV2 0) HTMLVideoElement
              (answers (Fulfilled tt) (Fulfilled (MobileNetV2 0))
                 (Fulfilled (Some [banana; {| className := "water bottle";
                                              probability := 0.05%float |}]))
                 (Fulfilled tt))
              banana [{| className := "water bottle"; probability := 0.05%float |}]
              eq_refl eq_refl) as (c & Hexec & _ & Hconf & Hlabel).
  exists c. split; [exact Hexec|]. split; [exact Hconf | exact Hlabel].
Defined.

Lemma classifyElement_loads_on_demand_witness :
  model (this (fst (exec all_fulfilled (@classifyElement example_constants HTMLVideoElement)
                      fresh_world))) = Some (MobileNetV2 0).
Proof.
  destruct (@classifyElement_loads_on_demand example_constants fresh_world (MobileNetV2 0)
              HTMLVideoElement all_fulfilled) as (_ & Hm & _).
  - split; reflexivity.
  - reflexivity.
  - reflexivity.
  - exact Hm.
Defined.

Lemma classifyElement_load_failure_witness :
  snd (exec (answers (Rejected "offline") (Fulfilled (MobileNetV2 0))
               (Fulfilled (Some [banana])) (Fulfilled tt))
         (@classifyElement example_constants HTMLVideoElement) fresh_world)
  = Rejected load_error.
Proof.
  rewrite (@classifyElement_load_failure example_constants fresh_world HTMLVideoElement).
  - reflexivity.
  - split; reflexivity.
  - intros Hready. discriminate Hready.
Defined.

Lemma classify_is_classifyElement_witness :
  exec all_fulfilled (@classify example_constants (Blob "photo.png")) fresh_world =
  (revoked 1%positive
     (fst (exec all_fulfilled
             (@classifyElement example_constants (HTMLImageElement 1%positive))
             (snd (App.createObjectURL_now fresh_world)))),
   snd (exec all_fulfilled
          (@classifyElement example_constants (HTMLImageElement 1%positive))
          (snd (App.createObjectURL_now fresh_world)))).
Proof.
  pose proof (@classify_is_classifyElement example_constants (Blob "photo.png")
                fresh_world all_fulfilled eq_refl) as Hc.
  unfold App.createObjectURL_now in *. cbn [snd] in *.
  destruct (exec all_fulfilled (@classifyElement example_constants _) _) as [w2 r].
  exact Hc.
Defined.

Lemma urls_fresh_fresh_world : urls_fresh fresh_world.
Proof. intros url Hin. by apply not_elem_of_empty in Hin. Qed.

Lemma classify_leaves_no_url_witness :
  objectURLs (fst (exec all_fulfilled (@classify example_constants (Blob "photo.png"))
                     fresh_world)) = ∅.
Proof.
  by destruct (@classify_leaves_no_url example_constants (Blob "photo.png") fresh_world
                 all_fulfilled urls_fresh_fresh_world) as [Hu _].
Defined.

(** ** The earlier [classify] *)

(** Case analysis on how the promises of a run settle. *)
Ltac settle a :=
  repeat first
    [ progress cbn
    | match goal with
      | |- context [a ?X ?op] => destruct (a X op) eqn:?
      end
    | match goal with
      | |- context [match ?x with _ => _ end] => is_var x; destruct x
      end ].

Section ClassifierV1Facts.
Context `{Constants}.

(** X11. The earlier [classify] makes sure of the model before it creates
    the object URL. When the call ends without a model, no URL was created,
    and it is rejected: with the message of a failed load when it started
    the load itself, with 'Model not initialized properly.' when a load was
    under way elsewhere. When the classifier holds a model, one URL is
    created, for the image, and it is revoked on every way out; the result
    is the fallback or the mapping of the top prediction, and a failing
    decode or inference is reported with one and the same message. *)
Theorem classify_v1_urls_and_errors (file : File) (w : World) (a : Answers) :
  urls_fresh w ->
  let (w', r) := exec a (classify_v1 file) w in
  objectURLs w' = objectURLs w /\
  match model (this w') with
  | None =>
      nextURL w' = nextURL w /\
      r = Rejected (if isModelLoading (this w) then not_initialized_v1 else load_error_v1)
  | Some m =>
      let img := HTMLImageElement (nextURL w) in
      nextURL w' = Pos.succ (nextURL w) /\
      r = match a _ (ImageLoad img), a _ (ModelClassify m img) with
          | Fulfilled _, Fulfilled None
          | Fulfilled _, Fulfilled (Some []) => Fulfilled (getUnknownResult_v1 None None)
          | Fulfilled _, Fulfilled (Some (topResult :: _)) =>
              Fulfilled (mapLabelToWaste_v1 (className topResult) (probability topResult))
          | _, _ => Rejected process_error_v1
          end
  end.
Proof.
  intros Hfresh. pose proof (urls_fresh_next w Hfresh) as Hnext.
  destruct w as [[[m|] [|]] urls next con]; cbn in Hnext;
    unfold classify_v1, loadModel_v1; settle a;
    (split; [first [done | by apply fresh_revoke] | try done]).
  all: by simplify_eq.
Qed.

End ClassifierV1Facts.

Lemma classify_v1_urls_and_errors_witness :
  exec (answers (Fulfilled tt) (Fulfilled (MobileNetV2 0)) (Fulfilled (Some [banana]))
          (Rejected "EncodingError"))
       (@classify_v1 example_constants (Blob "notes.txt")) fresh_world
  = ({| this := {| model := Some (MobileNetV2 0); isModelLoading := false |};
        objectURLs := ∅; nextURL := 2%positive;
        console := ["Classification error:";
                    "MobileNet model loaded successfully using ESM."] |},
     Rejected process_error_v1) /\
  snd (exec (answers (Rejected "offline") (Fulfilled (MobileNetV2 0))
               (Fulfilled (Some [banana])) (Fulfilled tt))
         (@classify_v1 example_constants (Blob "photo.png")) fresh_world)
  = Rejected load_error_v1 /\
  nextURL (fst (exec (answers (Rejected "offline") (Fulfilled (MobileNetV2 0))
                        (Fulfilled (Some [banana])) (Fulfilled tt))
                  (@classify_v1 example_constants (Blob "photo.png")) fresh_world))
  = 1%positive.
Proof.
  split.
  - pose proof (@classify_v1_urls_and_errors example_constants (Blob "notes.txt")
                  fresh_world
                  (answers (Fulfilled tt) (Fulfilled (MobileNetV2 0))
                     (Fulfilled (Some [banana])) (Rejected "EncodingError"))
                  urls_fresh_fresh_world) as Hw.
    destruct (exec _ (@classify_v1 example_constants (Blob "notes.txt")) fresh_world)
      as [w' r] eqn:He.
    destruct Hw as [Hurls _]. vm_compute in He. by injection He as <- <-.
  - pose proof (@classify_v1_urls_and_errors example_constants (Blob "photo.png")
                  fresh_world
                  (answers (Rejected "offline") (Fulfilled (MobileNetV2 0))
                     (Fulfilled (Some [banana])) (Fulfilled tt))
                  urls_fresh_fresh_world) as Hw.
    destruct (exec _ (@classify_v1 example_constants (Blob "photo.png")) fresh_world)
      as [w' r] eqn:He.
    destruct Hw as [_ Hw].
    assert (model (this w') = None) as Hm by (by vm_compute in He; injection He as <- <-).
    rewrite Hm in Hw. destruct Hw as [Hnext ->]. split; [reflexivity | exact Hnext].
Defined.

(** ** The model is loaded once *)

Lemma load_holds_inv (st : Step unit) :
  load_holds st ->
  match st with
  | Done _ => False
  | Suspended op k =>
      forall r w w' st',
        loading w -> run (k r) w = (w', st') ->
        (is_suspended st' = true -> loading w' /\ load_holds st') /\
        (is_suspended st' = false -> isModelLoading (this w') = false)
  end.
Proof.
  destruct 1 as [X op k Hkeep Hnext Hend]. intros r w w' st' Hw Hrun.
  split; [split|]; eauto.
Qed.

Ltac load_settles :=
  let Hrun := fresh "Hrun" in let Hmo := fresh "Hmo" in let Hlo := fresh "Hlo" in
  intros [?|?] [[? ?] ? ? ?] ? ? [Hmo Hlo] Hrun;
  cbn in Hrun, Hmo, Hlo; subst; cbn in Hrun; injection Hrun as <- <-.

Lemma loadModel_call_holds (w : World) :
  unloaded w ->
  exists k, run loadModel w = (set_isModelLoading true w, Suspended TfReady k) /\
    load_holds (Suspended TfReady k).
Proof.
  intros [Hm Hl]. destruct w as [[mo lo] urls next con]. simpl in Hm, Hl. subst mo lo.
  unfold loadModel. cbn. eexists. split; [reflexivity|].
  constructor.
  - load_settles; done.
  - load_settles; [intros _ | done].
    constructor; load_settles; done.
  - load_settles; done.
Qed.

Lemma callers_model_inv_step (s s' : Callers) :
  callers_model_inv s -> callers_step s s' -> callers_model_inv s'.
Proof.
  unfold callers_model_inv, loads_in_flight. intros (Hall & Hcount & Hnone) Hstep.
  destruct Hstep as [[w calls] | [w calls] before X op k after r Hcalls];
    cbn [c_world c_calls] in *.
  - destruct (isModelLoading (this w)) eqn:Hflag.
    + rewrite (run_loadModel_loading w) by (split; [by apply Hnone | done]).
      cbn [c_world c_calls]. rewrite suspended_app, Hflag. cbn.
      split; [|split; [lia | done]]. apply Forall_app. split; [done|]. by constructor.
    + destruct (model (this w)) as [m|] eqn:Hm.
      * rewrite (run_loadModel_loaded w m Hm).
        cbn [c_world c_calls]. rewrite suspended_app, Hflag. cbn.
        split; [|split; [lia | done]]. apply Forall_app. split; [done|]. by constructor.
      * destruct (loadModel_call_holds w) as (k & -> & Hk); [done|].
        cbn [c_world c_calls]. rewrite suspended_app. cbn.
        split; [|split; [lia | by rewrite Hm]].
        apply Forall_app. split; [done|]. by constructor.
  - subst calls. apply Forall_app in Hall as [Hbefore Hafter].
    apply Forall_cons in Hafter as [Hk Hafter].
    rewrite suspended_app in Hcount. cbn in Hcount.
    destruct (isModelLoading (this w)) eqn:Hflag; [|lia].
    assert (loading w) as Hw by (split; [by apply Hnone | done]).
    destruct (run (k r) w) as [w' st] eqn:Hrun.
    destruct (load_holds_inv _ (Hk eq_refl) r w w' st Hw Hrun) as [Hgo Hend].
    cbn [c_world c_calls]. rewrite suspended_app. cbn.
    destruct (is_suspended st) eqn:Hst.
    + destruct (Hgo eq_refl) as [[Hm' Hl'] Hst']. rewrite Hl'. cbn.
      split; [|split; [lia | done]].
      apply Forall_app. split; [done|]. by constructor.
    + rewrite (Hend eq_refl). cbn. split; [|split; [lia | done]].
      apply Forall_app. split; [done|]. constructor; [|done]. by rewrite Hst.
Qed.

Lemma callers_reachable_model_inv (w0 : World) (s : Callers) :
  unloaded w0 -> callers_reachable w0 s -> callers_model_inv s.
Proof.
  intros [Hm Hl] Hreach. induction Hreach as [|s s' _ IH Hstep].
  - split; [constructor|]. unfold loads_in_flight. cbn. by rewrite Hl.
  - by apply (callers_model_inv_step s s').
Qed.

(** X12. Once the classifier holds a model, however the calls of
    [loadModel] and their promises interleaved before, no load is in flight
    any more, and nothing that can still happen, a further call included,
    changes the state: the model is loaded once and never replaced. *)
Theorem model_is_loaded_once (w0 : World) (s : Callers) (m : MobileNet) :
  unloaded w0 -> callers_reachable w0 s ->
  model (this (c_world s)) = Some m ->
  loads_in_flight s = 0 /\
  forall s', callers_step s s' -> c_world s' = c_world s.
Proof.
  intros Hw0 Hreach Hm.
  destruct (callers_reachable_model_inv w0 s Hw0 Hreach) as (_ & Hcount & Hnone).
  assert (isModelLoading (this (c_world s)) = false) as Hflag.
  { destruct (isModelLoading (this (c_world s))); [|done].
    rewrite (Hnone eq_refl) in Hm. discriminate. }
  rewrite Hflag in Hcount. split; [done|].
  intros s' Hstep. destruct Hstep as [[w calls] | [w calls] before X op k after r Hcalls];
    cbn [c_world c_calls] in *.
  - by rewrite (run_loadModel_loaded w m Hm).
  - exfalso. unfold loads_in_flight in Hcount. cbn in Hcount. subst calls.
    rewrite suspended_app in Hcount. cbn in Hcount. lia.
Qed.

Lemma callers_reachable_call (w0 : World) (s : Callers) :
  callers_reachable w0 s -> callers_reachable w0 (callers_call_now s).
Proof. intros Hreach. eapply callers_next; [exact Hreach | apply callers_call]. Qed.

Lemma callers_reachable_settle (w0 : World) (a : Answers) (s : Callers) :
  callers_reachable w0 s -> callers_reachable w0 (callers_settle_first a s).
Proof.
  intros Hreach. unfold callers_settle_first.
  destruct (c_calls s) as [|[r|X op k] after] eqn:Hcalls; try done.
  eapply callers_next; [exact Hreach|].
  apply (callers_settle s [] X op k after (a X op)). exact Hcalls.
Qed.

Lemma callers_reachable_loaded : callers_reachable fresh_world callers_loaded.
Proof.
  do 2 apply callers_reachable_settle. apply callers_reachable_call. constructor.
Qed.

Lemma model_is_loaded_once_witness :
  model (this (c_world callers_loaded)) = Some (MobileNetV2 0) /\
  loads_in_flight callers_loaded = 0 /\
  c_world (callers_call_now callers_loaded) = c_world callers_loaded.
Proof.
  destruct (model_is_loaded_once fresh_world callers_loaded (MobileNetV2 0))
    as [Hcount Hstay].
  - split; reflexivity.
  - apply callers_reachable_loaded.
  - reflexivity.
  - split; [reflexivity|]. split; [exact Hcount|]. apply Hstay. apply callers_call.
Defined.

(** ** [App] *)

Lemma all_exits_exec {A : Type} (a : Answers) (p : Async A) (w : World)
    (P : World -> Settled A -> Prop) :
  all_exits p w P -> P (fst (exec a p w)) (snd (exec a p w)).
Proof.
  revert w. induction p as [x|e|k IH|w0 k IH|X op k IH]; intros w Hall; try done.
  - by apply IH.
  - by apply IH.
  - apply IH. apply Hall.
Qed.

Section AppFacts.
Context `{Constants}.

(** X13. A handler that was created before the model was ready does
    nothing. Otherwise the handler ends in the world [classify] leaves, run
    after the preview URL has been made, with [isProcessing] down again and
    the preview showing that URL. When [classify] is fulfilled, the result
    is what it was fulfilled with, the fallback or the mapping of a
    prediction, and no error is shown. When [classify] is rejected, no
    result is set and the error shown is the very message it was rejected
    with, one of the four of the service, never 'Analysis failed.'. *)
Theorem handleFileSelect_outcome (a : Answers) (file : File) (s : App.State) (w : World) :
  App.handleFileSelect a false file s w = (s, w) /\
  let (w', r) := exec a (classify file) (snd (App.createObjectURL_now w)) in
  match r with
  | Fulfilled c =>
      App.handleFileSelect a true file s w =
        ({| App.modelReady := App.modelReady s; App.loadingError := None;
            App.isProcessing := false; App.result := Some c;
            App.previewUrl := Some (nextURL w); App.mode := App.mode s |}, w') /\
      mapped_result c
  | Rejected e =>
      App.handleFileSelect a true file s w =
        ({| App.modelReady := App.modelReady s; App.loadingError := Some e;
            App.isProcessing := false; App.result := None;
            App.previewUrl := Some (nextURL w); App.mode := App.mode s |}, w') /\
      (e = load_error \/ e = initialization_error \/ e = inference_error \/
       e = decode_error)
  end.
Proof.
  split; [reflexivity|].
  unfold App.handleFileSelect, App.handleFileSelect_start, App.createObjectURL_now.
  cbn [negb snd]. rewrite exec_await_call.
  pose proof (all_exits_exec a _ _ _
    (classify_outcomes file
       {| this := this w; objectURLs := {[nextURL w]} ∪ objectURLs w;
          nextURL := Pos.succ (nextURL w); console := console w |})) as Hout.
  destruct (exec a (classify file) _) as [w' [c|e]]; cbn in Hout.
  - split; [reflexivity | exact Hout].
  - destruct Hout as [He Htruthy]. split; [|exact He].
    unfold App.handleFileSelect_settled, App.message_or. by rewrite Htruthy.
Qed.

(** X14. The object URL that [handleFileSelect] creates for the preview is
    never revoked: after the handler has run to its end the registered URLs
    are those from before and the preview URL. *)
Theorem handleFileSelect_keeps_preview_url (a : Answers) (file : File) (s : App.State)
    (w : World) :
  urls_fresh w ->
  let (s', w') := App.handleFileSelect a true file s w in
  App.previewUrl s' = Some (nextURL w) /\
  objectURLs w' = {[nextURL w]} ∪ objectURLs w /\
  nextURL w ∈ objectURLs w'.
Proof.
  intros Hfresh.
  unfold App.handleFileSelect, App.handleFileSelect_start, App.createObjectURL_now.
  cbn [negb]. rewrite exec_await_call.
  assert (urls_fresh {| this := this w; objectURLs := {[nextURL w]} ∪ objectURLs w;
                        nextURL := Pos.succ (nextURL w); console := console w |}) as Hf1.
  { intros url Hin. cbn in *. apply elem_of_union in Hin as [Hin | Hin].
    - apply elem_of_singleton in Hin as ->. apply Pos.lt_succ_diag_r.
    - apply Pos.lt_lt_succ. by apply Hfresh. }
  destruct (classify_leaves_no_url file _ a Hf1) as (Hurls & _ & _).
  destruct (exec a (classify file) _) as [w' r]. cbn in Hurls |- *.
  split; [by destruct r|]. split; [done|]. rewrite Hurls.
  apply elem_of_union. left. by apply elem_of_singleton.
Qed.

(** X15. [initModel] on the unloaded classifier. When both promises of
    the load are fulfilled, [modelReady] is set and the error cleared, and
    the classifier holds the model that was loaded, with the flag down.
    When either is rejected, [modelReady] is left as it was, the error shown
    is the message of [loadModel], and the classifier is unloaded again. *)
Theorem initModel_unloaded (a : Answers) (s : App.State) (w : World) :
  unloaded w ->
  let (s', w') := App.initModel a s w in
  match a _ TfReady, a _ MobilenetLoad with
  | Fulfilled _, Fulfilled m =>
      s' = {| App.modelReady := true; App.loadingError := None;
              App.isProcessing := App.isProcessing s; App.result := App.result s;
              App.previewUrl := App.previewUrl s; App.mode := App.mode s |} /\
      this w' = {| model := Some m; isModelLoading := false |}
  | _, _ =>
      s' = {| App.modelReady := App.modelReady s; App.loadingError := Some load_error;
              App.isProcessing := App.isProcessing s; App.result := App.result s;
              App.previewUrl := App.previewUrl s; App.mode := App.mode s |} /\
      this w' = this w
  end.
Proof.
  intros [Hm Hl]. destruct w as [[mo lo] urls next con]. simpl in Hm, Hl. subst mo lo.
  unfold App.initModel. rewrite exec_await_call. unfold loadModel. cbn.
  destruct (a _ TfReady) as [[]|reason]; cbn; [|done].
  destruct (a _ MobilenetLoad) as [m|reason]; cbn; done.
Qed.


End AppFacts.

(** X17. [getCategoryStyles] gives every category its own colours:
    different categories differ in each of the four style classes. *)
Theorem getCategoryStyles_distinct (c1 c2 : WasteCategory) :
  c1 <> c2 ->
  App.bg (App.getCategoryStyles c1) <> App.bg (App.getCategoryStyles c2) /\
  App.text (App.getCategoryStyles c1) <> App.text (App.getCategoryStyles c2) /\
  App.light (App.getCategoryStyles c1) <> App.light (App.getCategoryStyles c2) /\
  App.border (App.getCategoryStyles c1) <> App.border (App.getCategoryStyles c2).
Proof. destruct c1, c2; intros Hne; try done; repeat split; discriminate. Qed.

Lemma handleFileSelect_keeps_preview_url_witness :
  objectURLs (snd (@App.handleFileSelect example_constants all_fulfilled true
                     (Blob "photo.png") sample_state fresh_world)) = {[1%positive]} ∪ ∅.
Proof.
  pose proof (@handleFileSelect_keeps_preview_url example_constants all_fulfilled
                (Blob "photo.png") sample_state fresh_world urls_fresh_fresh_world) as Hw.
  destruct (@App.handleFileSelect example_constants all_fulfilled true (Blob "photo.png")
              sample_state fresh_world) as [s' w'].
  by destruct Hw as (_ & Hurls & _).
Defined.

Lemma initModel_unloaded_witness :
  App.initModel all_fulfilled App.initial fresh_world =
    ({| App.modelReady := true; App.loadingError := None; App.isProcessing := false;
        App.result := None; App.previewUrl := None; App.mode := App.upload |},
     loaded_from (MobileNetV2 0) fresh_world) /\
  App.loadingError
    (fst (App.initModel (answers (Fulfilled tt) (Rejected "offline")
                           (Fulfilled (Some [banana])) (Fulfilled tt))
            App.initial fresh_world)) = Some load_error.
Proof.
  split.
  - pose proof (initModel_unloaded all_fulfilled App.initial fresh_world
                  (conj eq_refl eq_refl)) as Hw.
    destruct (App.initModel all_fulfilled App.initial fresh_world) as [s' w'] eqn:Hi.
    cbn in Hw. destruct Hw as [-> _]. vm_compute in Hi. by injection Hi as <-.
  - pose proof (initModel_unloaded
                  (answers (Fulfilled tt) (Rejected "offline")
                     (Fulfilled (Some [banana])) (Fulfilled tt))
                  App.initial fresh_world (conj eq_refl eq_refl)) as Hw.
    destruct (App.initModel _ App.initial fresh_world) as [s' w'].
    cbn in Hw. by destruct Hw as [-> _].
Defined.


Lemma getCategoryStyles_distinct_witness :
  App.bg (App.getCategoryStyles GLASS) <> App.bg (App.getCategoryStyles UNKNOWN).
Proof.
  by destruct (getCategoryStyles_distinct GLASS UNKNOWN ltac:(discriminate)) as [Hbg _].
Defined.

(** ** The live scan, continued *)

Ltac page_cases :=
  repeat first
    [ progress cbn
    | match goal with
      | |- context [if ?b then _ else _] => destruct b eqn:?
      | |- context [match ?x with _ => _ end] => destruct x eqn:?
      end ].

Lemma live_is_live_render (r : Render) : live r <-> r = live_render.
Proof.
  split; [|by intros ->]. destruct r as [act str]. by intros [Hact Hstr]; cbn in *; subst.
Qed.

(** What [scheduleNext] changes, for a function of a live render. *)
Lemma scheduleNext_live (r : Render) (p : Page) :
  live r ->
  timers (scheduleNext r p) = <[nextTimer p := r]> (timers p) /\
  inflight (scheduleNext r p) = inflight p /\
  acquiring (scheduleNext r p) = acquiring p /\
  isActive (scheduleNext r p) = isActive p /\
  isStreaming (view (scheduleNext r p)) = isStreaming (view p) /\
  error (view (scheduleNext r p)) = error (view p) /\
  live_tracks (scheduleNext r p) = live_tracks p /\
  sink (scheduleNext r p) = sink p /\ result (scheduleNext r p) = result p.
Proof. intros [Hact Hstr]. unfold scheduleNext. rewrite Hact, Hstr. by open_page p. Qed.

(** What [processFrame] changes: it adds a timeout or an awaited inference. *)
Lemma processFrame_live (r : Render) (p : Page) :
  live r ->
  (timers (processFrame r p) = <[nextTimer p := r]> (timers p) /\
   inflight (processFrame r p) = inflight p \/
   timers (processFrame r p) = timers p /\
   inflight (processFrame r p) = r :: inflight p) /\
  acquiring (processFrame r p) = acquiring p /\
  isActive (processFrame r p) = isActive p /\
  isStreaming (view (processFrame r p)) = isStreaming (view p) /\
  error (view (processFrame r p)) = error (view p) /\
  live_tracks (processFrame r p) = live_tracks p /\
  sink (processFrame r p) = sink p /\ result (processFrame r p) = result p.
Proof.
  intros Hr. destruct (scheduleNext_live r p Hr) as (Ht & Hi & Hrest).
  assert ((timers (scheduleNext r p) = <[nextTimer p := r]> (timers p) /\
           inflight (scheduleNext r p) = inflight p \/
           timers (scheduleNext r p) = timers p /\
           inflight (scheduleNext r p) = r :: inflight p) /\
          acquiring (scheduleNext r p) = acquiring p /\
          isActive (scheduleNext r p) = isActive p /\
          isStreaming (view (scheduleNext r p)) = isStreaming (view p) /\
          error (view (scheduleNext r p)) = error (view p) /\
          live_tracks (scheduleNext r p) = live_tracks p /\
          sink (scheduleNext r p) = sink p /\
          result (scheduleNext r p) = result p) as Hs.
  { split; [by left | exact Hrest]. }
  unfold processFrame.
  destruct (negb (r_isActive r) || negb (r_isStreaming r) || isProcessingRef (view p));
    [exact Hs|].
  destruct (videoRef (view p)) as [video|]; [|exact Hs].
  destruct (3 <=? readyState video)%Z; [|exact Hs].
  split; [right|]; by open_page p.
Qed.

Lemma scan_inv_mount : scan_inv mount.
Proof.
  split; cbn.
  - by left.
  - done.
  - done.
  - intros id r Hid. by rewrite lookup_empty in Hid.
  - intros r Hr. by apply not_elem_of_nil in Hr.
  - done.
Qed.

Lemma scan_inv_scheduleNext (r : Render) (q : Page) :
  live r -> timers q = ∅ -> inflight q = [] -> acquiring q = false ->
  error (view q) = None ->
  scan_inv (scheduleNext r q).
Proof.
  intros Hr Htm Hinf Hacq Herr.
  destruct (scheduleNext_live r q Hr) as (Ht & Hi & Hacq' & _ & _ & Herr' & _).
  rewrite Htm, insert_empty in Ht. rewrite Hinf in Hi. split.
  - left. by rewrite Herr'.
  - by rewrite Hacq', Hacq.
  - by rewrite Herr', Herr.
  - intros id r0 Hid. rewrite Ht in Hid.
    by apply lookup_singleton_Some in Hid as [_ <-].
  - intros r0 Hr0. rewrite Hi in Hr0. by apply not_elem_of_nil in Hr0.
  - intros _ _. left. rewrite Ht. apply insert_non_empty.
Qed.

Lemma scan_inv_processFrame (r : Render) (q : Page) :
  live r -> timers q = ∅ -> inflight q = [] -> acquiring q = false ->
  error (view q) = None ->
  scan_inv (processFrame r q).
Proof.
  intros Hr Htm Hinf Hacq Herr.
  destruct (processFrame_live r q Hr) as (Hcases & Hacq' & _ & _ & Herr' & _).
  rewrite Htm, insert_empty, Hinf in Hcases. split.
  - left. by rewrite Herr'.
  - by rewrite Hacq', Hacq.
  - by rewrite Herr', Herr.
  - intros id r0 Hid. destruct Hcases as [[Ht _] | [Ht _]]; rewrite Ht in Hid.
    + by apply lookup_singleton_Some in Hid as [_ <-].
    + by rewrite lookup_empty in Hid.
  - intros r0 Hr0. destruct Hcases as [[_ Hi] | [_ Hi]]; rewrite Hi in Hr0.
    + by apply not_elem_of_nil in Hr0.
    + by apply list_elem_of_singleton in Hr0 as ->.
  - intros _ _. destruct Hcases as [[Ht _] | [_ Hi]].
    + left. rewrite Ht. apply insert_non_empty.
    + right. by rewrite Hi.
Qed.

Lemma scan_inv_step (p p' : Page) :
  page_inv p -> scan_inv p -> step p p' -> scan_inv p'.
Proof.
  intros Hinv Hscan Hstep.
  destruct Hscan as [Herr Hwait Hden Htm Hinf Halive].
  destruct Hinv as [Hchain Hidle Hbusy Htr Hvid Hnt].
  destruct Hstep as [p stream Hacq | p reason Hacq | p n
    | p id r Hid | p before r after outcome Hin | p Hact].
  - (* getUserMedia is fulfilled *)
    destruct (Hwait Hacq) as (Hstr & Herr0 & Hsink & Hres).
    destruct (Hidle Hacq) as (Htm0 & Hinf0 & Hlive0).
    clear Hvid Htr. cbv zeta.
    replace (isStreaming (view (set_acquiring false
               (set_live_tracks (live_tracks p ∪ list_to_set stream) p))))
      with false by (by destruct p).
    destruct (videoRef (view p)) as [video|] eqn:Hv.
    + match goal with |- scan_inv (scan_effect ?q) =>
        assert (timers q = ∅ /\ inflight q = [] /\ acquiring q = false /\
                error (view q) = None /\ isStreaming (view q) = true /\
                isActive q = isActive p) as (Hq1 & Hq2 & Hq3 & Hq4 & Hq5 & Hq6);
        [ open_page p; subst; done | unfold scan_effect; rewrite Hq5, Hq6 ]
      end.
      destruct (isActive p) eqn:Hact; cbn [andb r_isStreaming r_isActive].
      * by apply scan_inv_processFrame.
      * match goal with |- scan_inv ?q =>
          split; [left; by rewrite Hq4 | by rewrite Hq3 | by rewrite Hq4
                 | intros id r Hid; by rewrite Hq1, lookup_empty in Hid
                 | intros r Hr; by rewrite Hq2 in Hr; apply not_elem_of_nil in Hr
                 | by rewrite Hq6 ]
        end.
    + (* the component is gone: the stream is attached to nothing *)
      unfold scan_effect, startCamera_settled. open_page p. subst. cbn.
      split; cbn;
        [ by left | done | done
        | intros id r Hid; by rewrite lookup_empty in Hid
        | intros r Hr; by apply not_elem_of_nil in Hr
        | done ].
  - (* getUserMedia is rejected *)
    destruct (Hwait Hacq) as (Hstr & Herr0 & Hsink & Hres).
    destruct (Hidle Hacq) as (Htm0 & Hinf0 & Hlive0).
    open_page p. subst. split; cbn.
    + by right.
    + done.
    + done.
    + intros id r Hid. by rewrite lookup_empty in Hid.
    + intros r Hr. by apply not_elem_of_nil in Hr.
    + done.
  - (* the video element changes its readyState *)
    unfold set_readyState. destruct (videoRef (view p)) as [video|]; by open_page p.
  - (* a timeout fires *)
    pose proof (Htm id r Hid) as Hr.
    assert (error (view p) = None) as Herr0.
    { destruct (error (view p)) as [e|] eqn:He; [|done].
      destruct (Hden ltac:(done)) as (_ & _ & Htm0 & _).
      rewrite Htm0 in Hid. by rewrite lookup_empty in Hid. }
    assert (acquiring p = false) as Hacq.
    { destruct (acquiring p); [|done]. destruct (Hidle eq_refl) as (Htm0 & _).
      rewrite Htm0 in Hid. by rewrite lookup_empty in Hid. }
    assert (timers p = {[id := r]} /\ inflight p = []) as [Htm1 Hinf1].
    { destruct Hchain as [[Htm0 _] | (Hinf0 & id' & r' & Htm0 & _)].
      - rewrite Htm0 in Hid. by rewrite lookup_empty in Hid.
      - rewrite Htm0 in Hid. by apply lookup_singleton_Some in Hid as [<- <-]. }
    apply scan_inv_processFrame; [done | | by destruct p..].
    cbn. rewrite Htm1. apply delete_singleton_eq.
  - (* the awaited classifyElement settles *)
    assert (live r) as Hr.
    { apply Hinf. rewrite Hin. apply elem_of_app. right. left. }
    assert (error (view p) = None) as Herr0.
    { destruct (error (view p)) as [e|] eqn:He; [|done].
      destruct (Hden ltac:(done)) as (_ & _ & _ & Hinf0 & _).
      rewrite Hinf0 in Hin. by destruct before. }
    assert (acquiring p = false) as Hacq.
    { destruct (acquiring p); [|done]. destruct (Hidle eq_refl) as (_ & Hinf0 & _).
      rewrite Hinf0 in Hin. by destruct before. }
    assert (timers p = ∅ /\ before = [] /\ after = []) as (Htm1 & -> & ->).
    { destruct Hchain as [[Htm0 Hlen] | (Hinf0 & _)].
      - rewrite Hin, length_app in Hlen. simpl in Hlen.
        split; [done|]. destruct before, after; simpl in Hlen; try lia. done.
      - rewrite Hinf0 in Hin. by destruct before. }
    unfold processFrame_settled.
    apply scan_inv_scheduleNext; [done|..];
      destruct outcome as [late|reason]; unfold handleLiveResult;
      try destruct (0.2 <? confidence late)%float; by open_page p.
  - (* the user leaves live mode *)
    destruct (unmount_quiet p Hchain)
      as (Htm' & Hlive' & Hinf' & _ & Hact' & Hacq' & _ & Hres' & Hsink' & Herr' & Hstr').
    split.
    + by rewrite Herr'.
    + rewrite Hacq', Herr', Hstr', Hsink', Hres'. intros Hacq.
      by destruct (Hwait Hacq) as (_ & ? & ? & ?).
    + rewrite Herr', Hacq', Hstr', Htm', Hinf', Hlive', Hsink', Hres'.
      intros Hne. by destruct (Hden Hne) as (? & _ & _ & ? & ? & ? & ?).
    + intros id r Hid. rewrite Htm' in Hid. by rewrite lookup_empty in Hid.
    + intros r Hr0. rewrite Hinf' in Hr0. by apply Hinf.
    + by rewrite Hact'.
Qed.

Lemma reachable_scan_inv (p : Page) : reachable p -> scan_inv p.
Proof.
  induction 1 as [|p p' Hreach IH Hstep]; [apply scan_inv_mount|].
  apply (scan_inv_step p p'); [by apply reachable_inv | done | done].
Qed.

(** X18. While the session is active and streaming, the sampling loop is
    running: either exactly one timeout is pending or exactly one inference
    is awaited, whatever happened to the frames before, failed inferences
    included. *)
Theorem scan_loop_is_alive (p : Page) :
  reachable p -> isActive p = true -> isStreaming (view p) = true ->
  (exists id, timers p = {[id := live_render]} /\ inflight p = []) \/
  (timers p = ∅ /\ inflight p = [live_render]).
Proof.
  intros Hreach Hact Hstr.
  destruct (reachable_scan_inv p Hreach) as [_ _ _ Htm Hinf Halive].
  destruct (reachable_inv p Hreach) as [Hchain _ _ _ _ _].
  destruct Hchain as [[Htm0 Hlen] | (Hinf0 & id & r & Htm0 & _)].
  - right. split; [done|].
    destruct (inflight p) as [|r [|r' rest]] eqn:Hi; simpl in Hlen; [|f_equal|lia].
    + destruct (Halive Hact Hstr); done.
    + apply live_is_live_render, Hinf. left.
  - left. exists id. split; [|done]. rewrite Htm0. f_equal.
    apply live_is_live_render, (Htm id). rewrite Htm0. apply lookup_singleton_eq.
Qed.

Lemma scan_loop_is_alive_witness :
  timers page_inferring = ∅ /\ inflight page_inferring = [live_render].
Proof.
  destruct (scan_loop_is_alive page_inferring reachable_page_inferring eq_refl eq_refl)
    as [(id & Htm & Hinf) | Hbusy].
  - discriminate Hinf.
  - exact Hbusy.
Defined.

(** X19. When the camera is refused, the message about camera access is
    shown and nothing else ever happens: the session never streams, no
    timeout is scheduled, no inference is started, no track is live and no
    result is delivered. *)
Theorem camera_denied_never_scans (p : Page) :
  reachable p -> error (view p) <> None ->
  error (view p) = Some camera_error /\
  isStreaming (view p) = false /\ timers p = ∅ /\ inflight p = [] /\
  live_tracks p = ∅ /\ sink p = [] /\ result p = None.
Proof.
  intros Hreach Hne.
  destruct (reachable_scan_inv p Hreach) as [Herr _ Hden _ _ _].
  destruct (Hden Hne) as (_ & Hstr & Htm & Hinf & Hlive & Hsink & Hres).
  destruct Herr as [Herr | Herr]; done.
Qed.

Lemma reachable_page_denied : reachable page_denied.
Proof.
  eapply reachable_step; [apply reachable_mount|].
  exact (step_denied mount "NotAllowedError" eq_refl).
Qed.

Lemma camera_denied_never_scans_witness :
  error (view page_denied) = Some camera_error /\ timers page_denied = ∅.
Proof.
  destruct (camera_denied_never_scans page_denied reachable_page_denied)
    as (Herr & _ & Htm & _).
  - discriminate.
  - split; [exact Herr | exact Htm].
Defined.

(** X20. [stopCamera] can be run twice in a row, as the effect on
    [isActive] does with its cleanup and its [else] branch: the second run
    changes nothing. *)
Theorem stopCamera_idempotent (p : Page) : stopCamera (stopCamera p) = stopCamera p.
Proof.
  unfold stopCamera, clearTimeout.
  destruct p as [act [[[[stream|] ready]|] err str [id|] busy] acq tm nt inf live res snk];
    cbn; try reflexivity;
    destruct (id =? 0)%Z eqn:Hid; cbn; rewrite ?Hid; reflexivity.
Qed.

(** The steps other than deactivation leave the session as active as it
    was and stop no track. *)
Lemma step_keeps_tracks (p p' : Page) :
  step p p' -> isActive p = false ->
  isActive p' = false /\ live_tracks p ⊆ live_tracks p'.
Proof.
  intros Hstep Hact. destruct Hstep as [p stream Hacq | p reason Hacq | p n
    | p id r Hid | p before r after outcome Hin | p Hact'].
  - cbv zeta. unfold scan_effect, startCamera_settled.
    open_page p. subst act.
    destruct vid as [video|], str; cbn; rewrite ?andb_false_r;
      (split; [done | apply union_subseteq_l]).
  - by open_page p.
  - unfold set_readyState. destruct (videoRef (view p)); by open_page p.
  - unfold processFrame, scheduleNext. open_page p. page_cases; done.
  - unfold processFrame_settled, handleLiveResult, scheduleNext.
    open_page p. destruct outcome; page_cases; done.
  - congruence.
Qed.

(** X21. Once the session has been deactivated it stays so, and no camera
    track is ever stopped again: a stream that [getUserMedia] grants after
    the deactivation keeps capturing. *)
Theorem no_track_stopped_after_deactivation (p p' : Page) :
  isActive p = false -> rtc step p p' ->
  isActive p' = false /\ live_tracks p ⊆ live_tracks p'.
Proof.
  intros Hact Hsteps. induction Hsteps as [p | p q p' Hstep _ IH]; [done|].
  destruct (step_keeps_tracks p q Hstep Hact) as [Hq Hsub].
  destruct (IH Hq) as [Hp' Hsub']. split; [done|]. by transitivity (live_tracks q).
Qed.

Lemma reachable_page_granted_late : reachable page_granted_late.
Proof.
  eapply reachable_step.
  - eapply reachable_step; [apply reachable_mount|].
    exact (step_deactivate mount eq_refl).
  - exact (step_granted (unmount mount) [7] eq_refl).
Qed.

Lemma no_track_stopped_after_deactivation_witness :
  isActive (set_readyState 4 page_granted_late) = false /\
  7 ∈ live_tracks (set_readyState 4 page_granted_late).
Proof.
  destruct (no_track_stopped_after_deactivation page_granted_late
              (set_readyState 4 page_granted_late) eq_refl) as [Hact Hsub].
  - apply rtc_once. apply step_video.
  - split; [exact Hact|]. apply Hsub. by vm_compute.
Defined.

Lemma loads_in_flight_at_most_one_witness :
  loads_in_flight
    (callers_call_now (callers_call_now {| c_world := fresh_world; c_calls := [] |})) = 1.
Proof.
  destruct (loads_in_flight_at_most_one fresh_world
              (callers_call_now
                 (callers_call_now {| c_world := fresh_world; c_calls := [] |})))
    as [_ Hflag].
  - split; reflexivity.
  - do 2 apply callers_reachable_call. constructor.
  - apply Hflag. reflexivity.
Defined.
